(** * Beam-search decoding and evaluation helpers of [training-and-backend/test.py]

    A shallow embedding of the pure parts of the evaluation script: the
    special-token filter, the statistics and markdown helpers, the
    regrouping of batched hypotheses, the unique top-k selection and the
    decode driver [evaluate].

    Conventions of the embedding.
    - A token id is a [Z]; a 1-D tensor of tokens is a [list Z]; a 2-D
      tensor (batch x length) is a [list (list Z)].
    - Python floats and 0-d float tensors are idealised as rationals [Q].
    - A Python exception is a value of [PyError]; fallible code lives in the
      error monad [result].
    - The encoder, the decoder and the constants [SPECIAL_TOKENS] and
      [START] of the dataset module are external to the file: they are the
      fields of the record [Collaborators] that [evaluate] takes.
    - Library calls are modelled by what they do on the arguments the
      script gives them: [DataLoader()] without a dataset raises
      [TypeError]; [editdistance.eval] compares the hashes of the
      elements. *)

From Stdlib Require Import List ZArith QArith Qround Lia Lqa Bool Arith PeanoNat.
From Stdlib Require Import String Ascii DecimalString.
From Stdlib Require Import Permutation Sorted.
Import ListNotations.

Close Scope Q_scope.
Open Scope nat_scope.

Set Implicit Arguments.

(** ** Python exceptions as an error monad *)

Module Py.

Inductive PyError : Type :=
| IndexError
| ValueError
| RuntimeError
| ZeroDivisionError
| KeyError
| TypeError.

Definition result (A : Type) : Type := sum PyError A.

Definition ret {A : Type} (a : A) : result A := inr a.
Definition raise {A : Type} (e : PyError) : result A := inl e.

Definition bind {A B : Type} (c : result A) (k : A -> result B) : result B :=
  match c with
  | inl e => inl e
  | inr a => k a
  end.

(** [xs[i]] for a non-negative index. *)
Definition index {A : Type} (xs : list A) (i : nat) : result A :=
  match nth_error xs i with
  | Some x => ret x
  | None => raise IndexError
  end.

(** A list comprehension whose body may raise: the first exception wins. *)
Fixpoint mapM {A B : Type} (f : A -> result B) (xs : list A) : result (list B) :=
  match xs with
  | [] => ret []
  | x :: xs' =>
      bind (f x) (fun y => bind (mapM f xs') (fun ys => ret (y :: ys)))
  end.

(** A [for] loop threading a state, whose body may raise. *)
Fixpoint foldM {A S : Type} (f : S -> A -> result S) (s : S) (xs : list A)
  : result S :=
  match xs with
  | [] => ret s
  | x :: xs' => bind (f s x) (fun s' => foldM f s' xs')
  end.

(** [xs[start:stop]] with Python's treatment of negative bounds: a negative
    bound counts from the end, and every bound is clamped to [0, len]. *)
Definition slice_bound (n i : Z) : Z :=
  if (i <? 0)%Z then Z.max 0 (i + n) else Z.min i n.

Definition slice {A : Type} (xs : list A) (start stop : Z) : list A :=
  let n := Z.of_nat (List.length xs) in
  let a := slice_bound n start in
  let b := slice_bound n stop in
  firstn (Z.to_nat (b - a)) (skipn (Z.to_nat a) xs).

(** [min(...)] over a generator of lengths: [ValueError] when it is empty. *)
Definition min_of (ns : list nat) : result nat :=
  match ns with
  | [] => raise ValueError
  | n :: ns' => ret (fold_left Nat.min ns' n)
  end.

(** [max(...)] over a generator of lengths: [ValueError] when it is empty. *)
Definition max_of (ns : list nat) : result nat :=
  match ns with
  | [] => raise ValueError
  | n :: ns' => ret (fold_left Nat.max ns' n)
  end.

End Py.

Import Py.

Declare Scope py_scope.
Notation "x <- c ;; k" := (bind c (fun x => k))
  (at level 61, c at next level, right associativity) : py_scope.
Open Scope py_scope.

(** ** Token codec: [remove_special_tokens] *)

Module TokenCodec.

(** [tok in special_tokens] *)
Definition is_special (special_tokens : list Z) (tok : Z) : bool :=
  existsb (Z.eqb tok) special_tokens.

(** The counting loops of the [strip_only] branch: the number of leading
    tokens that are special, stopping at the first one that is not. *)
Fixpoint count_run (special_tokens : list Z) (tokens : list Z) : nat :=
  match tokens with
  | [] => 0
  | tok :: rest =>
      if is_special special_tokens tok
      then S (count_run special_tokens rest)
      else 0
  end.

Definition remove_special_tokens
  (tokens : list Z) (special_tokens : list Z) (strip_only : bool) : list Z :=
  if strip_only then
    let num_left := count_run special_tokens tokens in
    let num_right := count_run special_tokens (rev tokens) in
    slice tokens (Z.of_nat num_left) (- Z.of_nat num_right)
  else
    filter (fun tok => negb (is_special special_tokens tok)) tokens.

End TokenCodec.

(** ** Evaluation aggregator: [calc_distances], [create_statistics] *)

Module Stats.

(** Python's [hash] of an int on a 64-bit build: the absolute value
    reduced modulo [2 ** 61 - 1], with the sign of the int, and -2 in the
    place of -1. *)
Definition py_hash (n : Z) : Z :=
  let h := (Z.sgn n * (Z.abs n mod (2 ^ 61 - 1)))%Z in
  if Z.eqb h (-1) then (-2)%Z else h.

(** The Levenshtein distance of two lists of integers. *)
Fixpoint levenshtein (a b : list Z) : nat :=
  match a with
  | [] => List.length b
  | x :: a' =>
      (fix inner (b : list Z) : nat :=
         match b with
         | [] => S (List.length a')
         | y :: b' =>
             Nat.min
               (Nat.min (S (levenshtein a' b)) (S (inner b')))
               ((if Z.eqb x y then 0 else 1) + levenshtein a' b')
         end) b
  end.

(** [editdistance.eval]: the library takes the hash of every element of
    the two lists and returns the Levenshtein distance of the two lists
    of hashes. *)
Definition editdistance_eval (a b : list Z) : nat :=
  levenshtein (map py_hash a) (map py_hash b).

(** [zip(actual, expected)] stops at the shorter of the two. *)
Definition calc_distances (actual expected : list (list Z)) : list nat :=
  map (fun ae => editdistance_eval (fst ae) (snd ae)) (combine actual expected).

(** [torch.equal] on 1-D token tensors: same length and same entries. *)
Fixpoint torch_equal (a b : list Z) : bool :=
  match a, b with
  | [], [] => true
  | x :: a', y :: b' => Z.eqb x y && torch_equal a' b'
  | _, _ => false
  end.

(** [sum([torch.equal(seq, exp) for seq, exp in zip(...)])] *)
Definition count_equal (actual expected : list (list Z)) : nat :=
  List.length
    (filter (fun ae => torch_equal (fst ae) (snd ae)) (combine actual expected)).

(** A dict with the keys "full", "removed" and "symbols". *)
Record Views (A : Type) : Type := mkViews {
  full : A;
  removed : A;
  symbols : A
}.

Record Correct : Type := mkCorrect {
  correct : Views nat;
  total : nat;
  percent : option (Views Q)
}.

(** The hypothesis dict that [create_statistics] reads and updates; the
    keys it adds are absent ([None]) before the call. *)
Record Scored : Type := mkScored {
  sequence : Views (list (list Z));
  expected : Views (list (list Z));
  num_tokens : Views Z;
  distance : option (Views nat);
  error : option (Views Q);
  correct_stats : option Correct
}.

(** [a / b] on Python ints: true division, [ZeroDivisionError] for [b = 0]. *)
Definition true_div (a b : Z) : result Q :=
  if Z.eqb b 0 then raise ZeroDivisionError
  else ret (inject_Z a / inject_Z b)%Q.

Definition sum_nat (ns : list nat) : nat := fold_left Nat.add ns 0.

(** The three quotients of a dict display, evaluated in key order. *)
Definition div_views (num : Views nat) (den : Views Z) : result (Views Q) :=
  f <- true_div (Z.of_nat (full num)) (full den) ;;
  r <- true_div (Z.of_nat (removed num)) (removed den) ;;
  s <- true_div (Z.of_nat (symbols num)) (symbols den) ;;
  ret (mkViews f r s).

(** [create_statistics] returns nothing and updates the dict in place: the
    result is the dict as the call leaves it, and the exception raised, if
    any.  The assignments made before an exception stay in the dict. *)
Definition create_statistics (hypothesis : Scored) : Scored * option PyError :=
  let seq := sequence hypothesis in
  let exp := expected hypothesis in
  let distance_ :=
    mkViews
      (sum_nat (calc_distances (full seq) (full exp)))
      (sum_nat (calc_distances (removed seq) (removed exp)))
      (sum_nat (calc_distances (symbols seq) (symbols exp))) in
  let correct_ :=
    mkViews
      (count_equal (full seq) (full exp))
      (count_equal (removed seq) (removed exp))
      (count_equal (symbols seq) (symbols exp)) in
  let total_ := List.length (full seq) in
  let h1 :=
    mkScored seq exp (num_tokens hypothesis)
      (Some distance_) (error hypothesis) (correct_stats hypothesis) in
  match div_views distance_ (num_tokens hypothesis) with
  | inl e => (h1, Some e)
  | inr error_ =>
      let h2 :=
        mkScored seq exp (num_tokens hypothesis) (Some distance_) (Some error_)
          (Some (mkCorrect correct_ total_ None)) in
      let totals := mkViews (Z.of_nat total_) (Z.of_nat total_) (Z.of_nat total_) in
      match div_views correct_ totals with
      | inl e => (h2, Some e)
      | inr percent_ =>
          (mkScored seq exp (num_tokens hypothesis) (Some distance_) (Some error_)
             (Some (mkCorrect correct_ total_ (Some percent_))), None)
      end
  end.

End Stats.

(** ** Report formatting: [to_percent], [create_markdown_tables] *)

Module Markdown.

Open Scope string_scope.

(** [round(x)] on a float: the nearest integer, ties to the even one. *)
Definition py_round (x : Q) : Z :=
  let f := Qfloor x in
  match Qcompare (x - inject_Z f)%Q (1 # 2)%Q with
  | Lt => f
  | Gt => (f + 1)%Z
  | Eq => if Z.even f then f else (f + 1)%Z
  end.

Fixpoint repeat_char (c : ascii) (n : nat) : string :=
  match n with
  | 0 => EmptyString
  | S n' => String c (repeat_char c n')
  end.

(** The format spec [{s:>{width}}]: right-aligned, filled with spaces on
    the left up to [width]; a longer [s] is left as it is. *)
Definition rjust (width : nat) (s : string) : string :=
  repeat_char " "%char (width - String.length s) ++ s.

Definition digits (n : Z) : string :=
  NilZero.string_of_uint (N.to_uint (Z.to_N n)).

(** [{value:.{precision}f}] for the value [r / 10 ** precision]. *)
Definition format_fixed (r : Z) (precision : nat) : string :=
  let scale := (10 ^ Z.of_nat precision)%Z in
  let a := Z.abs r in
  let frac := digits (a mod scale) in
  (if (r <? 0)%Z then "-" else EmptyString)
  ++ digits (a / scale)
  ++ (if Nat.eqb precision 0 then EmptyString
      else "." ++ repeat_char "0"%char (precision - String.length frac) ++ frac).

Definition to_percent (decimal : Q) (precision : nat) : string :=
  let after_decimal_point := (10 ^ Z.of_nat precision)%Z in
  let shifted := (decimal * 100 * inject_Z after_decimal_point)%Q in
  format_fixed (py_round shifted) precision ++ "%".

(** One entry of the results mapping, as far as the tables read it:
    [result["error"]] and [result["correct"]["percent"]]. *)
Record Result : Type := mkResult {
  error : Stats.Views Q;
  correct_percent : Stats.Views Q
}.

(** [re.sub("[^|]", "-", line)] *)
Fixpoint delimiter_of (line : string) : string :=
  match line with
  | EmptyString => EmptyString
  | String c rest =>
      String (if Ascii.eqb c "|"%char then c else "-"%char) (delimiter_of rest)
  end.

Definition header_line (model_pad : nat) (model token no_special symbol : string)
  : string :=
  "| " ++ rjust model_pad model ++ " | " ++ token ++ " | " ++ no_special
       ++ " | " ++ symbol ++ " |".

Definition value_line
  (model_pad token_pad no_special_pad symbol_pad : nat)
  (model token no_special symbol : string) : string :=
  "| " ++ rjust model_pad model
       ++ " | " ++ rjust token_pad token
       ++ " | " ++ rjust no_special_pad no_special
       ++ " | " ++ rjust symbol_pad symbol ++ " |".

Definition model : string := "Model".
Definition err_token : string := "Token error rate".
Definition err_no_special : string := "Token error rate (no special tokens)".
Definition err_symbol : string := "Symbol error rate".
Definition correct_token : string := "Correct expressions".
Definition correct_no_special : string := "Correct expressions (no special tokens)".
Definition correct_symbol : string := "Correct expressions (Symbols)".

Definition newline : string := String (ascii_of_nat 10) EmptyString.

(** The lines of one table: header, delimiter, one line per entry. *)
Definition table_lines
  (model_pad : nat) (token no_special symbol : string)
  (pick : Result -> Stats.Views Q) (results : list (string * Result))
  : list string :=
  let header := header_line model_pad model token no_special symbol in
  let values :=
    map (fun nr =>
           value_line model_pad (String.length token)
             (String.length no_special) (String.length symbol)
             (fst nr)
             (to_percent (Stats.full (pick (snd nr))) 2)
             (to_percent (Stats.removed (pick (snd nr))) 2)
             (to_percent (Stats.symbols (pick (snd nr))) 2))
        results in
  header :: delimiter_of header :: values.

(** The results mapping is a dict in insertion order: a list of
    (checkpoint name, result) pairs.  [max] over no key is a [ValueError]. *)
Definition create_markdown_tables (results : list (string * Result))
  : result (string * string) :=
  key_pad <- max_of (map (fun nr => String.length (fst nr)) results) ;;
  let model_pad := Nat.max (String.length model) key_pad in
  let err_table :=
    String.concat newline
      (table_lines model_pad err_token err_no_special err_symbol error results) in
  let correct_table :=
    String.concat newline
      (table_lines model_pad correct_token correct_no_special correct_symbol
         correct_percent results) in
  ret (err_table, correct_table).


(** [table_shape model_pad h1 h2 h3 pick results lines]: [lines] is a
    header line, a delimiter line of the same length and one row per
    result, in the order of the results.  In the header the word "Model"
    is padded with spaces on the left to [model_pad] and the three column
    headers stand as they are.  In a row the name is padded on the left to
    [model_pad], and each value is padded on the left to the length of the
    header of its column, not further: a value longer than its header
    stands as it is.  So a row exceeds the header line by the characters
    by which its values exceed their headers, and it is as long as the
    header line exactly when none of its three values is longer than its
    header. *)
Definition table_shape (model_pad : nat) (h1 h2 h3 : string)
  (pick : Result -> Stats.Views Q) (results : list (string * Result))
  (lines : list string) : Prop :=
  exists header delimiter rows,
    lines = header :: delimiter :: rows /\
    header
    = "| " ++ (repeat_char " "%char (model_pad - String.length model) ++ model)
      ++ " | " ++ h1 ++ " | " ++ h2 ++ " | " ++ h3 ++ " |" /\
    String.length delimiter = String.length header /\
    List.length rows = List.length results /\
    forall k name r, nth_error results k = Some (name, r) ->
      exists row v1 v2 v3,
        v1 = to_percent (Stats.full (pick r)) 2 /\
        v2 = to_percent (Stats.removed (pick r)) 2 /\
        v3 = to_percent (Stats.symbols (pick r)) 2 /\
        nth_error rows k = Some row /\
        row
        = "| " ++ (repeat_char " "%char (model_pad - String.length name) ++ name)
          ++ " | "
          ++ (repeat_char " "%char (String.length h1 - String.length v1) ++ v1)
          ++ " | "
          ++ (repeat_char " "%char (String.length h2 - String.length v2) ++ v2)
          ++ " | "
          ++ (repeat_char " "%char (String.length h3 - String.length v3) ++ v3)
          ++ " |" /\
        String.length row
        = String.length header
          + (String.length v1 - String.length h1)
          + (String.length v2 - String.length h2)
          + (String.length v3 - String.length h3) /\
        (String.length row = String.length header <->
         String.length v1 <= String.length h1 /\
         String.length v2 <= String.length h2 /\
         String.length v3 <= String.length h3).

End Markdown.

(** ** The beam: regrouping, unique top-k selection *)

Module Beam.

(** A Python [float] or a 1-D float tensor with one entry per input. *)
Inductive Prob : Type :=
| PFloat (p : Q)
| PTensor (ps : list Q).

(** [len(p)]: a float has no length. *)
Definition prob_len (p : Prob) : result nat :=
  match p with
  | PFloat _ => raise TypeError
  | PTensor ps => ret (List.length ps)
  end.

(** [p[i]] *)
Definition prob_index (p : Prob) (i : nat) : result Q :=
  match p with
  | PFloat _ => raise TypeError
  | PTensor ps => index ps i
  end.

Definition Qlt_bool (a b : Q) : bool := negb (Qle_bool b a).

Section Sorting.

Variable A : Type.
Variable key : A -> Q.

(** [sorted(xs, key=key, reverse=True)]: descending and stable, so an
    element stays in front of the later elements with an equal key. *)
Fixpoint insert_desc (x : A) (xs : list A) : list A :=
  match xs with
  | [] => [x]
  | y :: xs' =>
      if Qlt_bool (key x) (key y) then y :: insert_desc x xs' else x :: xs
  end.

Fixpoint sorted_desc (xs : list A) : list A :=
  match xs with
  | [] => []
  | x :: xs' => insert_desc x (sorted_desc xs')
  end.

(** [desc a b]: [a] may stand in front of [b] in a descending list. *)
Definition desc (a b : A) : Prop := (key b <= key a)%Q.

End Sorting.

Section Hypotheses.

(** The recurrent state and the attention accumulators are float tensors
    that the script only slices per input and stacks back: their contents
    stay opaque, one value per input. *)
Variables Hidden Attn : Type.

(** A hypothesis of one input, as built by [unbatch_hypotheses]. *)
Record Single : Type := mkSingle {
  s_full : list Z;
  s_hidden : Hidden;
  s_attn_low : Attn;
  s_attn_high : Attn;
  s_probability : Q
}.

(** A hypothesis of the whole batch: entry [i] of every field belongs to
    input [i]. *)
Record Batched : Type := mkBatched {
  seq_full : list (list Z);
  hidden : list Hidden;
  attn_low : list Attn;
  attn_high : list Attn;
  probability : Prob
}.

Definition single_at (h : Batched) (i : nat) : result Single :=
  f <- index (seq_full h) i ;;
  hd <- index (hidden h) i ;;
  lo <- index (attn_low h) i ;;
  hi <- index (attn_high h) i ;;
  p <- prob_index (probability h) i ;;
  ret (mkSingle f hd lo hi p).

(** [hypotheses_by_seq[i].append(single_h)] *)
Definition append_at (by_seq : list (list Single)) (i : nat) (single_h : Single)
  : result (list (list Single)) :=
  row <- index by_seq i ;;
  ret (firstn i by_seq ++ (row ++ [single_h]) :: skipn (S i) by_seq).

(** The body of [for i in range(len(h["probability"]))]. *)
Definition file_entry (h : Batched) (by_seq : list (list Single)) (i : nat)
  : result (list (list Single)) :=
  single_h <- single_at h i ;; append_at by_seq i single_h.

(** The body of [for h in hypotheses]. *)
Definition unbatch_one (by_seq : list (list Single)) (h : Batched)
  : result (list (list Single)) :=
  n <- prob_len (probability h) ;;
  foldM (file_entry h) by_seq (seq 0 n).

Definition unbatch_hypotheses (hypotheses : list Batched)
  : result (list (list Single)) :=
  match hypotheses with
  | [] => ret []
  | h0 :: _ =>
      n0 <- prob_len (probability h0) ;;
      foldM unbatch_one (repeat [] n0) hypotheses
  end.

(** [torch.stack] of 1-D token tensors: they must all have one length, and
    there must be at least one. *)
Definition stack_rows (rows : list (list Z)) : result (list (list Z)) :=
  match rows with
  | [] => raise RuntimeError
  | r :: rest =>
      if forallb (fun r' => Nat.eqb (List.length r') (List.length r)) rest
      then ret rows
      else raise RuntimeError
  end.

Definition batch_at (single_hypotheses : list (list Single)) (i : nat)
  : result Batched :=
  col <- mapM (fun hs => index hs i) single_hypotheses ;;
  f <- stack_rows (map s_full col) ;;
  ret (mkBatched f (map s_hidden col) (map s_attn_low col)
         (map s_attn_high col) (PTensor (map s_probability col))).

Definition batch_single_hypotheses (single_hypotheses : list (list Single))
  : result (list Batched) :=
  min_len <- min_of (map (@List.length Single) single_hypotheses) ;;
  mapM (batch_at single_hypotheses) (seq 0 min_len).

(** The inner loop of [pick_top_k_unique]: is the sequence of [h] already
    among the kept ones? *)
Definition already_exists (h : Single) (unique : list Single) : bool :=
  existsb (fun h_uniq => Stats.torch_equal (s_full h) (s_full h_uniq)) unique.

(** The walk over the sorted hypotheses of one input; [unique] is
    [unique_hypotheses[i]] so far. *)
Fixpoint keep_unique (count : nat) (unique : list Single) (hs : list Single)
  : list Single :=
  match hs with
  | [] => unique
  | h :: hs' =>
      if Nat.leb count (List.length unique) then unique
      else if already_exists h unique then keep_unique count unique hs'
      else keep_unique count (unique ++ [h]) hs'
  end.

(** The walk without its bound: of every full sequence of [hs] that no
    hypothesis of [seen] carries, the first hypothesis of [hs] that carries
    it, in the order of [hs]. *)
Fixpoint first_of_each (seen : list Single) (hs : list Single) : list Single :=
  match hs with
  | [] => []
  | h :: hs' =>
      if already_exists h seen then first_of_each seen hs'
      else h :: first_of_each (seen ++ [h]) hs'
  end.

Definition pick_top_k_unique (hypotheses : list Batched) (count : nat)
  : result (list Batched) :=
  by_seq <- unbatch_hypotheses hypotheses ;;
  let sorted_hypotheses := map (sorted_desc s_probability) by_seq in
  let unique_hypotheses := map (keep_unique count []) sorted_hypotheses in
  batch_single_hypotheses unique_hypotheses.

(** [grows P acc acc']: the per-input lists [acc'] are the lists [acc],
    each extended at its end by hypotheses that satisfy [P] at their
    input position. *)
Definition grows (P : nat -> Single -> Prop) (acc acc' : list (list Single))
  : Prop :=
  List.length acc' = List.length acc /\
  forall k row', nth_error acc' k = Some row' ->
    exists row extra,
      nth_error acc k = Some row /\ row' = row ++ extra /\
      forall x, In x extra -> P k x.

(** Entry [i] of [h] as a list: one hypothesis, or none when [h] has no
    entry [i]. *)
Definition entry_of (h : Batched) (i : nat) : list Single :=
  match single_at h i with
  | inr single_h => [single_h]
  | inl _ => []
  end.

(** The entries [i] of a list of batched hypotheses, in the order of the
    list. *)
Definition column (hypotheses : list Batched) (i : nat) : list Single :=
  flat_map (fun h => entry_of h i) hypotheses.

(** [rectangular n h]: every field of [h] has one entry for each of [n]
    inputs, and the probability is a tensor. *)
Definition rectangular (n : nat) (h : Batched) : Prop :=
  List.length (seq_full h) = n /\
  List.length (hidden h) = n /\
  List.length (attn_low h) = n /\
  List.length (attn_high h) = n /\
  exists ps, probability h = PTensor ps /\ List.length ps = n.

End Hypotheses.

End Beam.

(** ** The decode driver: [evaluate] *)

Module Decode.

Import Beam.

(** These are not counted as symbols: they only format or group. *)
Definition non_symbols : list string :=
  ["{"; "}"; "\left"; "\right"; "_"; "^"; "\Big"; "\Bigg"; "\limits"; "\mbox"]%string.

(** [torch.softmax(out, dim=1)] on one row of logits, for a given
    exponential [exp_]: every weight divided by the sum of the weights. *)
Definition softmax_row (exp_ : Q -> Q) (row : list Q) : list Q :=
  let weights := map exp_ row in
  let z := fold_right Qplus 0%Q weights in
  map (fun w => (w / z)%Q) weights.

(** [torch.topk(row, k)]: the [k] largest entries with their positions,
    largest first; more than the row holds is a [RuntimeError].  Among
    equal entries the earlier position is listed first. *)
Definition topk (row : list Q) (k : nat) : result (list (Q * Z)) :=
  if Nat.ltb (List.length row) k then raise RuntimeError
  else
    let indexed := combine row (map Z.of_nat (seq 0 (List.length row))) in
    ret (firstn k (sorted_desc fst indexed)).

(** [curr_sequence[:, -1]] for one row. *)
Definition last_token (row : list Z) : result Z :=
  match rev row with
  | [] => raise IndexError
  | tok :: _ => ret tok
  end.

(** [torch.cat((curr_sequence, top_id.view(-1, 1)), dim=1)] *)
Definition cat_column (rows : list (list Z)) (top_id : list Z)
  : result (list (list Z)) :=
  if Nat.eqb (List.length rows) (List.length top_id)
  then ret (map (fun rt => fst rt ++ [snd rt]) (combine rows top_id))
  else raise RuntimeError.

(** [p * top_prob] with torch broadcasting: a float or a one-entry tensor
    multiplies every entry. *)
Definition prob_mul (p : Prob) (top_prob : list Q) : result (list Q) :=
  match p with
  | PFloat x => ret (map (Qmult x) top_prob)
  | PTensor [x] => ret (map (Qmult x) top_prob)
  | PTensor ps =>
      match top_prob with
      | [t] => ret (map (fun x => (x * t)%Q) ps)
      | _ =>
          if Nat.eqb (List.length ps) (List.length top_prob)
          then ret (map (fun xt => (fst xt * snd xt)%Q) (combine ps top_prob))
          else raise RuntimeError
      end
  end.

(** Entry [i] of [p] as the multiplication reads it: a float or a
    one-entry tensor is the same for every input. *)
Definition broadcast_entry (p : Prob) (i : nat) : option Q :=
  match p with
  | PFloat x => Some x
  | PTensor [x] => Some x
  | PTensor ps => nth_error ps i
  end.

(** A data loader, as far as [evaluate] reads it: the table
    [data_loader.dataset.token_to_id]. *)
Record Loader : Type := mkLoader {
  token_to_id : string -> option Z
}.

(** [DataLoader(dataset)] of [torch.utils.data]: the dataset is a required
    argument, and a call without it raises [TypeError]. *)
Definition DataLoader (dataset : option (string -> option Z)) : result Loader :=
  match dataset with
  | Some table => ret (mkLoader table)
  | None => raise TypeError
  end.

(** [data_loader.dataset.token_to_id[tok]] *)
Definition encode (data_loader : Loader) (tok : string) : result Z :=
  match token_to_id data_loader tok with
  | Some id => ret id
  | None => raise KeyError
  end.

Section Driver.

Variables Image Feat Hidden Attn : Type.

(** The coverage accumulators the decoder keeps between calls:
    [dec.coverage_attn_low.alpha] and [dec.coverage_attn_high.alpha]. *)
Definition Alpha : Type := (list Attn * list Attn)%type.

(** What [evaluate] uses of the encoder and the decoder, and the constants
    it imports from the dataset module.  The decoder's forward call reads
    and replaces the accumulators, so it takes them and returns them. *)
Record Collaborators : Type := mkCollaborators {
  enc : list Image -> Feat * Feat;
  dec_reset : nat -> Alpha;
  dec_init_hidden : nat -> list Hidden;
  dec_forward :
    list Z -> list Hidden -> Feat -> Feat -> Alpha ->
    list (list Q) * list Hidden * Alpha;
  exp_ : Q -> Q;
  SPECIAL_TOKENS : list string;
  START : string
}.

Variable C : Collaborators.

(** The body of [for top_prob, top_id in zip(topk_probs.t(), topk_ids.t())]
    for column [j] of the top-k tensors. *)
Definition child
  (hypothesis : Batched Hidden Attn) (next_hidden : list Hidden) (alpha : Alpha)
  (tops : list (list (Q * Z))) (j : nat) : result (Batched Hidden Attn) :=
  let top_prob := map (fun row => fst (nth j row (0%Q, 0%Z))) tops in
  let top_id := map (fun row => snd (nth j row (0%Q, 0%Z))) tops in
  next_sequence <- cat_column (seq_full hypothesis) top_id ;;
  probability_ <- prob_mul (probability hypothesis) top_prob ;;
  ret (mkBatched next_sequence next_hidden (fst alpha) (snd alpha)
         (PTensor probability_)).

(** The body of [for hypothesis in hypotheses]: one forward call of the
    decoder on the last tokens of [hypothesis], with the accumulators of
    the hypothesis swapped in, and one child per top-k column. *)
Definition expand
  (enc_low_res enc_high_res : Feat) (beam_width : nat)
  (hypothesis : Batched Hidden Attn)
  : result (list (Batched Hidden Attn) * Alpha) :=
  previous <- mapM last_token (seq_full hypothesis) ;;
  let curr_hidden := hidden hypothesis in
  let alpha := (attn_low hypothesis, attn_high hypothesis) in
  let '(out, next_hidden, alpha') :=
    dec_forward C previous curr_hidden enc_low_res enc_high_res alpha in
  let probabilities := map (softmax_row (exp_ C)) out in
  tops <- mapM (fun row => topk row beam_width) probabilities ;;
  children <- mapM (child hypothesis next_hidden alpha' tops) (seq 0 beam_width) ;;
  ret (children, alpha').

(** One round over the current hypotheses: [step_hypotheses] and the
    accumulators the decoder is left with. *)
Definition expand_all
  (enc_low_res enc_high_res : Feat) (beam_width : nat)
  (alpha : Alpha) (hypotheses : list (Batched Hidden Attn))
  : result (list (Batched Hidden Attn) * Alpha) :=
  foldM (fun acc hypothesis =>
           r <- expand enc_low_res enc_high_res beam_width hypothesis ;;
           ret (fst acc ++ fst r, snd r))
    ([], alpha) hypotheses.

(** The three views computed for one hypothesis of the final beam. *)
Definition views_of (special_tokens non_symbols_encoded : list Z)
  (h : Batched Hidden Attn) : Stats.Views (list (list Z)) :=
  let removed_ :=
    map (fun seq => TokenCodec.remove_special_tokens seq special_tokens false)
      (seq_full h) in
  let symbols_ :=
    map (fun seq => TokenCodec.remove_special_tokens seq non_symbols_encoded false)
      removed_ in
  Stats.mkViews (seq_full h) removed_ symbols_.

(** What the name [sequence] is bound to when [evaluate] returns: the
    START tensor if the final loop never ran, else the dict of views of a
    hypothesis. *)
Inductive Returned : Type :=
| RTensor (t : list (list Z))
| RViews (v : Stats.Views (list (list Z))).

(** [evaluate] returns the dicts it prints, in order, and the value it
    returns.  Its first statement is [data_loader = DataLoader()], a call
    without dataset.  The input is the batch of images; the script runs a
    single round of the beam step (the loop over further rounds is
    disabled). *)
Definition evaluate (test_img : list Image) (beam_width : nat)
  : result (list (Stats.Views (list (list Z))) * Returned) :=
  data_loader <- DataLoader None ;;
  special_tokens <- mapM (encode data_loader) (SPECIAL_TOKENS C) ;;
  non_symbols_encoded <- mapM (encode data_loader) non_symbols ;;
  let curr_batch_size := List.length test_img in
  let '(enc_low_res, enc_high_res) := enc C test_img in
  let alpha := dec_reset C curr_batch_size in
  let hidden_ := dec_init_hidden C curr_batch_size in
  start <- encode data_loader (START C) ;;
  let sequence := repeat [start] curr_batch_size in
  let hypotheses :=
    [mkBatched sequence hidden_ (fst alpha) (snd alpha) (PFloat 1%Q)] in
  step <- expand_all enc_low_res enc_high_res beam_width alpha hypotheses ;;
  hypotheses' <- pick_top_k_unique (fst step) beam_width ;;
  let printed := map (views_of special_tokens non_symbols_encoded) hypotheses' in
  ret (printed,
       match rev printed with
       | [] => RTensor sequence
       | v :: _ => RViews v
       end).

End Driver.

End Decode.

(** ** A small vocabulary and decoder to run the driver on *)

Module Fixture.

Import Beam Decode.

Open Scope string_scope.

(** Any positive function can stand for the exponential of the softmax;
    this one is the identity on the positive logits. *)
Definition weight (x : Q) : Q := if Qle_bool x 0 then 1%Q else x.

(** A decoder without state over the ids START = 0, PAD = 1, "+" = 2,
    "1" = 3, END = 4 and one more; its logits give "1" the weight 6, "+"
    the weight 3 and the other four ids the weight 1/4 each, so the
    softmax is 0.6 for "1" and 0.3 for "+". *)
Definition model : Collaborators unit unit unit unit :=
  mkCollaborators
    (fun _ => (tt, tt))
    (fun n => (repeat tt n, repeat tt n))
    (fun n => repeat tt n)
    (fun previous hid _ _ alpha =>
       (map (fun _ => [1 # 4; 1 # 4; 3; 6; 1 # 4; 1 # 4]%Q) previous, hid, alpha))
    weight
    ["<SOS>"; "<PAD>"; "<EOS>"]
    "<SOS>".

(** The seed hypothesis of a batch of one image. *)
Definition seed : Batched unit unit :=
  mkBatched [[0%Z]] [tt] [tt] [tt] (PFloat 1%Q).

(** The two children that survive one round from [seed] with beam width 2:
    START "1" with probability 0.6 and START "+" with probability 0.3. *)
Definition first_child : Batched unit unit :=
  mkBatched [[0; 3]%Z] [tt] [tt] [tt] (PTensor [1536 # 2560]%Q).

Definition second_child : Batched unit unit :=
  mkBatched [[0; 2]%Z] [tt] [tt] [tt] (PTensor [768 # 2560]%Q).

(** Three candidates of one input, two of them with the same sequence. *)
Definition dup_high : Single unit unit := mkSingle [0; 3]%Z tt tt tt (5 # 10)%Q.
Definition dup_low : Single unit unit := mkSingle [0; 3]%Z tt tt tt (3 # 10)%Q.
Definition other : Single unit unit := mkSingle [0; 2]%Z tt tt tt (2 # 10)%Q.

Definition batch_of_one (s : Single unit unit) : Batched unit unit :=
  mkBatched [s_full s] [s_hidden s] [s_attn_low s] [s_attn_high s]
    (PTensor [s_probability s]).

Definition candidates : list (Batched unit unit) :=
  [batch_of_one dup_low; batch_of_one other; batch_of_one dup_high].

Definition survivors : list (Batched unit unit) :=
  [batch_of_one dup_high; batch_of_one other].

(** A candidate that is more probable than both duplicates, and the three
    of them as the candidates of one input. *)
Definition better : Single unit unit := mkSingle [0; 4]%Z tt tt tt (9 # 10)%Q.

Definition crowded : list (Batched unit unit) :=
  [batch_of_one dup_low; batch_of_one better; batch_of_one dup_high].

(** Unique survivors of two inputs, two for the first and one for the
    second. *)
Definition ragged : list (list (Single unit unit)) :=
  [[dup_high; other]; [other]].

(** Results of two checkpoints whose names differ in length. *)
Definition two_checkpoints : list (string * Markdown.Result) :=
  [("a", Markdown.mkResult (Stats.mkViews (1 # 3) (1 # 4) (1 # 5))%Q
           (Stats.mkViews (1 # 2) (1 # 2) 1)%Q);
   ("checkpoint-0380",
     Markdown.mkResult (Stats.mkViews (1 # 8) (1 # 9) 0)%Q
       (Stats.mkViews 1 0 (1 # 4))%Q)].

(** A result whose token error rate prints wider than the 16 characters
    of the header "Token error rate". *)
Definition wide : list (string * Markdown.Result) :=
  [("m", Markdown.mkResult
           (Stats.mkViews (inject_Z (10 ^ 10)) 0 0)%Q
           (Stats.mkViews 0 0 0)%Q)].

(** A scored hypothesis whose expected sequence has no symbol left once
    the special and the formatting tokens are removed. *)
Definition no_symbols_expected : Stats.Scored :=
  Stats.mkScored
    (Stats.mkViews [[0; 3; 4]%Z] [[3]%Z] [[]])
    (Stats.mkViews [[0; 2; 4]%Z] [[2]%Z] [[]])
    (Stats.mkViews 3%Z 1%Z 0%Z) None None None.

End Fixture.

(** * Properties *)

Import TokenCodec Beam Decode.

(** ** The error monad and list helpers *)

Lemma bind_inr (A B : Type) (c : result A) (k : A -> result B) (b : B) :
  bind c k = inr b -> exists a, c = inr a /\ k a = inr b.
Proof. destruct c as [e|a]; simpl; [discriminate | eauto]. Qed.

Ltac inv_bind H :=
  repeat match type of H with
    | bind _ _ = inr _ =>
        let a := fresh "a" in
        let Ha := fresh "Hbind" in
        apply bind_inr in H as (a & Ha & H)
    end.

Lemma index_inr (A : Type) (xs : list A) (i : nat) (x : A) :
  index xs i = inr x <-> nth_error xs i = Some x.
Proof.
  unfold index. destruct (nth_error xs i) as [y|]; simpl; split; intros H;
    inversion H; reflexivity.
Qed.

Lemma mapM_Forall2 (A B : Type) (f : A -> result B) (xs : list A) (ys : list B) :
  mapM f xs = inr ys -> Forall2 (fun x y => f x = inr y) xs ys.
Proof.
  revert ys. induction xs as [|x xs IH]; simpl; intros ys H.
  - inversion H. constructor.
  - inv_bind H. inversion H; subst. constructor; auto.
Qed.

Lemma Forall2_nth_error_r (A B : Type) (R : A -> B -> Prop) xs ys :
  Forall2 R xs ys ->
  forall i y, nth_error ys i = Some y ->
  exists x, nth_error xs i = Some x /\ R x y.
Proof.
  induction 1 as [|x y xs ys Hxy _ IH]; intros [|i] y' Hy; simpl in *;
    try discriminate.
  - inversion Hy; subst. eauto.
  - eauto.
Qed.

Lemma Forall2_nth_error_l (A B : Type) (R : A -> B -> Prop) xs ys :
  Forall2 R xs ys ->
  forall i x, nth_error xs i = Some x ->
  exists y, nth_error ys i = Some y /\ R x y.
Proof.
  induction 1 as [|x y xs ys Hxy _ IH]; intros [|i] x' Hx; simpl in *;
    try discriminate.
  - inversion Hx; subst. eauto.
  - eauto.
Qed.

Lemma fold_min_spec (ns : list nat) (n : nat) :
  fold_left Nat.min ns n <= n /\
  Forall (fun k => fold_left Nat.min ns n <= k) ns /\
  In (fold_left Nat.min ns n) (n :: ns).
Proof.
  revert n. induction ns as [|k ns IH]; intros n; simpl.
  - repeat split; auto.
  - destruct (IH (Nat.min n k)) as (Hle & Hall & Hin). repeat split.
    + lia.
    + constructor; [lia | exact Hall].
    + destruct Hin as [Hin|Hin]; [|now right; right].
      destruct (Nat.min_spec n k) as [[_ E]|[_ E]];
        [left | right; left]; congruence.
Qed.

Lemma min_of_spec (ns : list nat) (m : nat) :
  min_of ns = inr m -> Forall (fun k => m <= k) ns /\ In m ns.
Proof.
  destruct ns as [|n ns]; simpl; intros H; inversion H; subst.
  destruct (fold_min_spec ns n) as (Hle & Hall & Hin).
  split; [constructor; assumption | exact Hin].
Qed.

(** Replacing entry [i] of a list, as [append_at] does. *)
Lemma nth_error_replace (A : Type) (xs : list A) (i k : nat) (x : A) :
  i < List.length xs ->
  nth_error (firstn i xs ++ x :: skipn (S i) xs) k
  = if Nat.eqb k i then Some x else nth_error xs k.
Proof.
  revert i k. induction xs as [|y xs IH]; intros i k Hi; simpl in Hi; [lia|].
  destruct i as [|i]; destruct k as [|k]; simpl; try reflexivity.
  apply IH. lia.
Qed.

Lemma length_replace (A : Type) (xs : list A) (i : nat) (x : A) :
  i < List.length xs ->
  List.length (firstn i xs ++ x :: skipn (S i) xs) = List.length xs.
Proof.
  intros Hi. rewrite length_app, length_firstn.
  change (List.length (x :: skipn (S i) xs))
    with (S (List.length (skipn (S i) xs))).
  rewrite length_skipn. lia.
Qed.

(** ** Token codec *)

(** A sequence with no special token has no special run at either end. *)
Lemma count_run_free (special_tokens tokens : list Z) :
  (forall tok, In tok tokens -> is_special special_tokens tok = false) ->
  count_run special_tokens tokens = 0.
Proof.
  destruct tokens as [|tok rest]; intros Hfree; simpl.
  - reflexivity.
  - rewrite (Hfree tok); [reflexivity | now left].
Qed.

(** With an empty right run the slice is [tokens[num_left:-0]], which
    Python reads as [tokens[num_left:0]]: the empty sequence. *)
Lemma slice_stop_zero (A : Type) (xs : list A) (start : nat) :
  slice xs (Z.of_nat start) (- Z.of_nat 0) = [].
Proof.
  unfold slice, slice_bound; simpl.
  destruct (Z.of_nat start <? 0)%Z eqn:E.
  - apply Z.ltb_lt in E; lia.
  - replace (Z.to_nat _) with 0.
    + reflexivity.
    + symmetry.
      destruct (Z.min_spec (Z.of_nat start) (Z.of_nat (List.length xs)))
        as [[_ ->]|[_ ->]]; lia.
Qed.

(** Strip mode maps every sequence that is free of special tokens to the
    empty sequence. *)
Lemma strip_free_is_empty (special_tokens tokens : list Z) :
  (forall tok, In tok tokens -> is_special special_tokens tok = false) ->
  remove_special_tokens tokens special_tokens true = [].
Proof.
  intros Hfree. unfold remove_special_tokens.
  rewrite (count_run_free special_tokens (rev tokens)).
  - apply slice_stop_zero.
  - intros tok Hin. apply Hfree. now apply in_rev.
Qed.

(** Claim C2, at the sequence [5; 6; 7] with special set [0; 1]: no token
    of the sequence is special, and [remove_special_tokens] in strip mode
    returns the empty sequence instead of the sequence itself. *)
Theorem strip_only_drops_special_free_sequence :
  (forall tok, In tok [5; 6; 7]%Z -> is_special [0; 1]%Z tok = false) /\
  remove_special_tokens [5; 6; 7]%Z [0; 1]%Z true = [] /\
  remove_special_tokens [5; 6; 7]%Z [0; 1]%Z true <> [5; 6; 7]%Z.
Proof.
  split; [|split].
  - intros tok [<-|[<-|[<-|[]]]]; reflexivity.
  - reflexivity.
  - discriminate.
Qed.

(** ** Regrouping *)

(** Claim C10: [unbatch_hypotheses] of the empty list of batched
    hypotheses is the empty list; the first element is never indexed. *)
Theorem unbatch_hypotheses_empty (Hidden Attn : Type) :
  @unbatch_hypotheses Hidden Attn [] = inr [].
Proof. reflexivity. Qed.

(** ** Statistics *)

Lemma div_views_zero (num : Stats.Views nat) (den : Stats.Views Z) :
  (Stats.full den = 0 \/ Stats.removed den = 0 \/ Stats.symbols den = 0)%Z ->
  Stats.div_views num den = inl ZeroDivisionError.
Proof.
  intros Hz. unfold Stats.div_views, Stats.true_div.
  destruct (Z.eqb_spec (Stats.full den) 0) as [_|Hf]; [reflexivity|].
  destruct (Z.eqb_spec (Stats.removed den) 0) as [_|Hr]; [reflexivity|].
  destruct (Z.eqb_spec (Stats.symbols den) 0) as [_|Hs]; [reflexivity|].
  tauto.
Qed.

(** Claim C7: when the expected token count of some view is zero,
    [create_statistics] raises [ZeroDivisionError], and it leaves no error
    rate in the dict, neither a zero nor any other number. *)
Theorem create_statistics_zero_tokens (hypothesis : Stats.Scored) :
  (Stats.full (Stats.num_tokens hypothesis) = 0
   \/ Stats.removed (Stats.num_tokens hypothesis) = 0
   \/ Stats.symbols (Stats.num_tokens hypothesis) = 0)%Z ->
  snd (Stats.create_statistics hypothesis) = Some ZeroDivisionError /\
  Stats.error (fst (Stats.create_statistics hypothesis)) = Stats.error hypothesis.
Proof.
  intros Hz. unfold Stats.create_statistics.
  rewrite (div_views_zero _ _ Hz). simpl. split; reflexivity.
Qed.

Lemma create_statistics_zero_tokens_witness :
  Stats.symbols (Stats.num_tokens Fixture.no_symbols_expected) = 0%Z /\
  snd (Stats.create_statistics Fixture.no_symbols_expected)
  = Some ZeroDivisionError /\
  Stats.error (fst (Stats.create_statistics Fixture.no_symbols_expected)) = None.
Proof.
  split; [reflexivity|].
  apply (create_statistics_zero_tokens Fixture.no_symbols_expected).
  right; right; reflexivity.
Defined.

(** ** Sorting by probability *)

Lemma Qlt_bool_true (a b : Q) : Qlt_bool a b = true -> (a <= b)%Q.
Proof.
  unfold Qlt_bool. intros H. apply negb_true_iff in H.
  apply Qlt_le_weak, Qnot_le_lt. intros Hle.
  apply Qle_bool_iff in Hle. congruence.
Qed.

Lemma Qlt_bool_false (a b : Q) : Qlt_bool a b = false -> (b <= a)%Q.
Proof.
  unfold Qlt_bool. intros H. apply negb_false_iff in H.
  now apply Qle_bool_iff.
Qed.

Section SortingFacts.

Variable A : Type.
Variable key : A -> Q.

Lemma insert_desc_perm (x : A) (xs : list A) :
  Permutation (insert_desc key x xs) (x :: xs).
Proof.
  induction xs as [|y xs IH]; simpl.
  - apply Permutation_refl.
  - destruct (Qlt_bool (key x) (key y)).
    + eapply Permutation_trans; [apply perm_skip, IH | apply perm_swap].
    + apply Permutation_refl.
Qed.

Lemma sorted_desc_perm (xs : list A) : Permutation (sorted_desc key xs) xs.
Proof.
  induction xs as [|x xs IH]; simpl.
  - apply perm_nil.
  - eapply Permutation_trans; [apply insert_desc_perm | now apply perm_skip].
Qed.

Lemma insert_desc_sorted (x : A) (xs : list A) :
  StronglySorted (desc key) xs -> StronglySorted (desc key) (insert_desc key x xs).
Proof.
  induction xs as [|y xs IH]; intros Hs; simpl.
  - repeat constructor.
  - apply StronglySorted_inv in Hs as [Hs Hall].
    destruct (Qlt_bool (key x) (key y)) eqn:E.
    + apply SSorted_cons; [now apply IH|].
      apply Forall_forall. intros z Hz.
      apply (Permutation_in _ (insert_desc_perm x xs)) in Hz.
      destruct Hz as [<-|Hz].
      * now apply Qlt_bool_true.
      * now apply (proj1 (Forall_forall _ _) Hall).
    + apply Qlt_bool_false in E.
      apply SSorted_cons; [now apply SSorted_cons|].
      constructor; [exact E|].
      eapply Forall_impl; [|exact Hall].
      intros z Hz. unfold desc in *. eapply Qle_trans; eassumption.
Qed.

Lemma sorted_desc_sorted (xs : list A) : StronglySorted (desc key) (sorted_desc key xs).
Proof.
  induction xs as [|x xs IH]; simpl.
  - constructor.
  - now apply insert_desc_sorted.
Qed.

Lemma sorted_desc_In (xs : list A) (x : A) :
  In x (sorted_desc key xs) <-> In x xs.
Proof.
  split; apply Permutation_in;
    [apply sorted_desc_perm | apply Permutation_sym, sorted_desc_perm].
Qed.

End SortingFacts.

(** ** The unique top-k walk *)

Lemma torch_equal_spec (a b : list Z) : Stats.torch_equal a b = true <-> a = b.
Proof.
  revert b. induction a as [|x a IH]; intros [|y b]; simpl;
    try (split; [discriminate | discriminate]); try tauto.
  rewrite andb_true_iff, Z.eqb_eq, IH. split.
  - intros [-> ->]; reflexivity.
  - intros H; inversion H; auto.
Qed.

Section WalkFacts.

Variables Hidden Attn : Type.

Lemma already_exists_true (h : Single Hidden Attn) (unique : list (Single Hidden Attn)) :
  already_exists h unique = true <-> In (s_full h) (map (@s_full _ _) unique).
Proof.
  unfold already_exists. rewrite existsb_exists, in_map_iff. split.
  - intros (u & Hu & E). apply torch_equal_spec in E. eauto.
  - intros (u & E & Hu). exists u. split; [exact Hu|].
    apply torch_equal_spec. auto.
Qed.

(** The walk only keeps what was kept before or what it walks over. *)
Lemma keep_unique_In (count : nat) (hs unique : list (Single Hidden Attn)) r :
  In r (keep_unique count unique hs) -> In r unique \/ In r hs.
Proof.
  revert unique. induction hs as [|h hs IH]; intros unique; simpl.
  - auto.
  - destruct (Nat.leb count (List.length unique)); [auto|].
    destruct (already_exists h unique).
    + intros H. apply IH in H. tauto.
    + intros H. apply IH in H. rewrite in_app_iff in H. simpl in H. tauto.
Qed.

(** The kept sequences stay pairwise different. *)
Lemma keep_unique_NoDup (count : nat) (hs unique : list (Single Hidden Attn)) :
  NoDup (map (@s_full _ _) unique) ->
  NoDup (map (@s_full _ _) (keep_unique count unique hs)).
Proof.
  revert unique. induction hs as [|h hs IH]; intros unique Hnd; simpl.
  - exact Hnd.
  - destruct (Nat.leb count (List.length unique)); [exact Hnd|].
    destruct (already_exists h unique) eqn:E; [now apply IH|].
    apply IH. rewrite map_app. simpl.
    apply (Permutation_NoDup (Permutation_cons_append _ _)).
    constructor; [|exact Hnd].
    intros Hin. apply already_exists_true in Hin. congruence.
Qed.

(** The walk never keeps more than [count] hypotheses. *)
Lemma keep_unique_length (count : nat) (hs unique : list (Single Hidden Attn)) :
  List.length (keep_unique count unique hs) <= Nat.max count (List.length unique).
Proof.
  revert unique. induction hs as [|h hs IH]; intros unique; simpl.
  - lia.
  - destruct (Nat.leb_spec count (List.length unique)) as [Hle|Hlt]; [lia|].
    destruct (already_exists h unique); [apply IH|].
    etransitivity; [apply IH|]. rewrite length_app. simpl. lia.
Qed.

(** What was kept stays kept. *)
Lemma keep_unique_incl (count : nat) (hs unique : list (Single Hidden Attn)) u :
  In u unique -> In u (keep_unique count unique hs).
Proof.
  revert unique. induction hs as [|h hs IH]; intros unique Hu; simpl.
  - exact Hu.
  - destruct (Nat.leb count (List.length unique)); [exact Hu|].
    destruct (already_exists h unique); apply IH; [exact Hu|].
    apply in_app_iff. now left.
Qed.

(** While the walk ends with room left, every sequence it walked over is
    among the kept ones. *)
Lemma keep_unique_represents (count : nat) (hs unique : list (Single Hidden Attn)) :
  List.length (keep_unique count unique hs) < count ->
  forall h, In h hs ->
    In (s_full h) (map (@s_full _ _) (keep_unique count unique hs)).
Proof.
  revert unique. induction hs as [|h0 hs IH]; intros unique Hroom h Hh;
    [destruct Hh|].
  simpl in *.
  destruct (Nat.leb_spec count (List.length unique)) as [Hfull|_]; [lia|].
  destruct (already_exists h0 unique) eqn:E.
  - destruct Hh as [->|Hh]; [|now apply IH].
    apply already_exists_true, in_map_iff in E as (u & Eu & Hu).
    apply in_map_iff. exists u. split; [exact Eu|]. now apply keep_unique_incl.
  - destruct Hh as [->|Hh]; [|now apply IH].
    apply in_map. apply keep_unique_incl. apply in_app_iff. right. now left.
Qed.

(** On a descending list the walk keeps, of every sequence, a hypothesis
    of the highest probability. *)
Lemma keep_unique_best (count : nat) (hs unique : list (Single Hidden Attn)) :
  StronglySorted (desc (@s_probability _ _)) hs ->
  (forall u c, In u unique -> In c (unique ++ hs) ->
     s_full c = s_full u -> (s_probability c <= s_probability u)%Q) ->
  forall r c, In r (keep_unique count unique hs) -> In c (unique ++ hs) ->
    s_full c = s_full r -> (s_probability c <= s_probability r)%Q.
Proof.
  revert unique. induction hs as [|h hs IH]; intros unique Hs Hinv; simpl.
  - exact Hinv.
  - apply StronglySorted_inv in Hs as [Hs Hall].
    destruct (Nat.leb count (List.length unique)); [exact Hinv|].
    destruct (already_exists h unique) eqn:E.
    + intros r c Hr Hc Hfull.
      apply in_app_iff in Hc as [Hc|[<-|Hc]].
      * apply (IH unique Hs); auto.
        -- intros u c' Hu Hc'. apply Hinv; [exact Hu|].
           apply in_app_iff in Hc' as [?|?]; apply in_app_iff; simpl; auto.
        -- apply in_app_iff; auto.
      * apply already_exists_true, in_map_iff in E as (u & Eu & Hu).
        apply Qle_trans with (s_probability u).
        -- apply Hinv; [exact Hu| |congruence]. apply in_app_iff; simpl; auto.
        -- apply (IH unique Hs); auto.
           ++ intros u' c' Hu' Hc'. apply Hinv; [exact Hu'|].
              apply in_app_iff in Hc' as [?|?]; apply in_app_iff; simpl; auto.
           ++ apply in_app_iff; auto.
           ++ congruence.
      * apply (IH unique Hs); auto.
        -- intros u c' Hu Hc'. apply Hinv; [exact Hu|].
           apply in_app_iff in Hc' as [?|?]; apply in_app_iff; simpl; auto.
        -- apply in_app_iff; auto.
    + intros r c Hr Hc Hfull.
      apply (IH (unique ++ [h]) Hs); auto.
      * intros u c' Hu Hc' Hf.
        assert (Hc'' : In c' unique \/ c' = h \/ In c' hs).
        { rewrite !in_app_iff in Hc'. simpl in Hc'. intuition auto. }
        apply in_app_iff in Hu as [Hu|[<-|[]]].
        -- apply Hinv; [exact Hu| |exact Hf].
           apply in_app_iff; simpl. intuition auto.
        -- destruct Hc'' as [Hc''|[->|Hc'']].
           ++ exfalso.
              assert (already_exists h unique = true); [|congruence].
              apply already_exists_true, in_map_iff. eauto.
           ++ apply Qle_refl.
           ++ exact (proj1 (Forall_forall _ _) Hall c' Hc'').
      * rewrite !in_app_iff in *. simpl in *. intuition auto.
Qed.

End WalkFacts.

(** ** Regrouping: from batches to inputs and back *)

Section RegroupFacts.

Variables Hidden Attn : Type.

Lemma single_at_inr (h : Batched Hidden Attn) (i : nat) (s : Single Hidden Attn) :
  single_at h i = inr s <->
  nth_error (seq_full h) i = Some (s_full s) /\
  nth_error (hidden h) i = Some (s_hidden s) /\
  nth_error (attn_low h) i = Some (s_attn_low s) /\
  nth_error (attn_high h) i = Some (s_attn_high s) /\
  prob_index (probability h) i = inr (s_probability s).
Proof.
  unfold single_at. split.
  - intros H. inv_bind H. inversion H; subst; simpl.
    repeat match goal with
      | E : index _ _ = inr _ |- _ => apply index_inr in E
      end.
    auto.
  - intros (Hf & Hh & Hl & Hg & Hp).
    apply index_inr in Hf, Hh, Hl, Hg. rewrite Hf, Hh, Hl, Hg, Hp. simpl.
    destruct s; reflexivity.
Qed.

(** The batched hypothesis that [batch_at] stacks from one column. *)
Lemma batch_at_spec (shs : list (list (Single Hidden Attn))) (j : nat) b :
  batch_at shs j = inr b ->
  exists col,
    Forall2 (fun hs s => nth_error hs j = Some s) shs col /\
    b = mkBatched (map (@s_full _ _) col) (map (@s_hidden _ _) col)
          (map (@s_attn_low _ _) col) (map (@s_attn_high _ _) col)
          (PTensor (map (@s_probability _ _) col)).
Proof.
  unfold batch_at. intros H. inv_bind H. inversion H; subst.
  exists a. split; [|unfold stack_rows in Hbind0].
  - apply mapM_Forall2 in Hbind.
    eapply Forall2_impl; [|exact Hbind].
    intros hs s E. now apply index_inr.
  - destruct (map (@s_full _ _) a) as [|r rest]; [discriminate|].
    destruct (forallb _ rest); inversion Hbind0; reflexivity.
Qed.

Lemma single_at_stacked (col : list (Single Hidden Attn)) (i : nat) s :
  single_at
    (mkBatched (map (@s_full _ _) col) (map (@s_hidden _ _) col)
       (map (@s_attn_low _ _) col) (map (@s_attn_high _ _) col)
       (PTensor (map (@s_probability _ _) col))) i = inr s
  <-> nth_error col i = Some s.
Proof.
  rewrite single_at_inr. simpl. rewrite index_inr, !nth_error_map.
  destruct (nth_error col i) as [s'|]; simpl.
  - split.
    + intros (Hf & Hh & Hl & Hg & Hp). destruct s, s'; simpl in *. congruence.
    + intros E. inversion E; subst. auto.
  - split; [intros (Hf & _); discriminate | discriminate].
Qed.

Lemma batch_single_hypotheses_spec (shs : list (list (Single Hidden Attn))) out :
  batch_single_hypotheses shs = inr out ->
  exists m,
    min_of (map (@List.length _) shs) = inr m /\
    List.length out = m /\
    forall j b, nth_error out j = Some b -> batch_at shs j = inr b.
Proof.
  unfold batch_single_hypotheses. intros H. inv_bind H.
  exists a. split; [exact Hbind|].
  apply mapM_Forall2 in H. split.
  - apply Forall2_length in H. rewrite length_seq in H. auto.
  - intros j b Hj.
    destruct (Forall2_nth_error_r H _ Hj) as (x & Hx & Hb).
    rewrite nth_error_seq in Hx.
    destruct (Nat.ltb j a); inversion Hx; subst. exact Hb.
Qed.

Lemma mapM_total (A B : Type) (f : A -> result B) (xs : list A) :
  (forall x, In x xs -> exists y, f x = inr y) ->
  exists ys, mapM f xs = inr ys.
Proof.
  induction xs as [|x xs IH]; intros Hf; simpl.
  - eexists; reflexivity.
  - destruct (Hf x (or_introl eq_refl)) as (y & ->).
    destruct IH as (ys & ->); [intros; apply Hf; now right|].
    simpl. eexists; reflexivity.
Qed.

Lemma Forall2_In_r (A B : Type) (R : A -> B -> Prop) xs ys (y : B) :
  Forall2 R xs ys -> In y ys -> exists x, In x xs /\ R x y.
Proof.
  intros HF Hy. apply In_nth_error in Hy as (i & Hi).
  destruct (Forall2_nth_error_r HF _ Hi) as (x & Hx & HR).
  exists x. split; [eapply nth_error_In; eassumption | exact HR].
Qed.

Lemma batch_at_total (shs : list (list (Single Hidden Attn))) (j : nat) :
  shs <> [] ->
  (forall hs, In hs shs -> j < List.length hs) ->
  (forall hs1 hs2 s1 s2,
     In hs1 shs -> In hs2 shs ->
     nth_error hs1 j = Some s1 -> nth_error hs2 j = Some s2 ->
     List.length (s_full s1) = List.length (s_full s2)) ->
  exists b, batch_at shs j = inr b.
Proof.
  intros Hne Hlen Hshape. unfold batch_at.
  destruct (mapM_total (fun hs => index hs j) shs) as (col & Hcol).
  { intros hs Hhs. specialize (Hlen hs Hhs).
    destruct (nth_error hs j) as [s|] eqn:E.
    - exists s. now apply index_inr.
    - apply nth_error_None in E. lia. }
  rewrite Hcol. simpl.
  apply mapM_Forall2 in Hcol.
  assert (HF : Forall2 (fun hs s => nth_error hs j = Some s) shs col).
  { eapply Forall2_impl; [|exact Hcol]. intros hs s E. now apply index_inr. }
  unfold stack_rows.
  destruct col as [|s0 col].
  { apply Forall2_length in HF. destruct shs; [congruence | discriminate]. }
  simpl.
  destruct (Forall2_In_r s0 HF (or_introl eq_refl)) as (hs0 & Hhs0 & Hs0).
  replace (forallb _ _) with true; [simpl; eexists; reflexivity|].
  symmetry. apply forallb_forall. intros r Hr.
  apply in_map_iff in Hr as (s & <- & Hs).
  destruct (Forall2_In_r s HF (or_intror Hs)) as (hs & Hhs & Hs').
  apply Nat.eqb_eq. apply (Hshape hs hs0 s s0); assumption.
Qed.

(** Claim C5: re-batching cuts the list of every input to the shortest
    length [m] among them.  For a non-empty list of per-input lists, every
    result has exactly [m] batched hypotheses, each with one entry per
    input, and entry [i] of the [j]-th one is the [j]-th hypothesis of
    input [i]; a result exists as soon as the sequences that are stacked
    together have one length. *)
Theorem batch_single_hypotheses_min_common
  (single_hypotheses : list (list (Single Hidden Attn))) :
  single_hypotheses <> [] ->
  exists m,
    min_of (map (@List.length _) single_hypotheses) = inr m /\
    Forall (fun hs => m <= List.length hs) single_hypotheses /\
    (exists hs, In hs single_hypotheses /\ List.length hs = m) /\
    (forall batched,
       batch_single_hypotheses single_hypotheses = inr batched ->
       List.length batched = m /\
       forall j b, nth_error batched j = Some b ->
         prob_len (probability b) = inr (List.length single_hypotheses) /\
         forall i hs, nth_error single_hypotheses i = Some hs ->
           exists s, nth_error hs j = Some s /\ single_at b i = inr s) /\
    ((forall j hs1 hs2 s1 s2,
        j < m -> In hs1 single_hypotheses -> In hs2 single_hypotheses ->
        nth_error hs1 j = Some s1 -> nth_error hs2 j = Some s2 ->
        List.length (s_full s1) = List.length (s_full s2)) ->
     exists batched, batch_single_hypotheses single_hypotheses = inr batched).
Proof.
  intros Hne.
  destruct (min_of (map (@List.length _) single_hypotheses)) as [e|m] eqn:Hmin.
  { destruct single_hypotheses; [congruence | discriminate]. }
  exists m. destruct (min_of_spec _ Hmin) as (Hall & Hin).
  assert (Hall' : Forall (fun hs => m <= List.length hs) single_hypotheses).
  { apply Forall_forall. intros hs Hhs.
    apply (proj1 (Forall_forall _ _) Hall). now apply in_map. }
  split; [reflexivity|]. split; [exact Hall'|]. split; [|split].
  - apply in_map_iff in Hin as (hs & E & Hhs). exists hs. auto.
  - intros batched Hb.
    destruct (batch_single_hypotheses_spec _ Hb) as (m' & Hm' & Hlen & Hat).
    assert (Em : m' = m) by congruence. rewrite Em in Hlen. split; [exact Hlen|].
    intros j b Hj. pose proof (Hat j b Hj) as Hb'.
    apply batch_at_spec in Hb' as (col & HF & ->).
    simpl. split.
    + rewrite length_map. unfold ret. f_equal. symmetry.
      eapply Forall2_length; eassumption.
    + intros i hs Hi.
      destruct (Forall2_nth_error_l HF _ Hi) as (s & Hs & E).
      exists s. split; [exact E|]. now apply single_at_stacked.
  - intros Hshape. unfold batch_single_hypotheses. rewrite Hmin. simpl.
    apply mapM_total. intros j Hj. apply in_seq in Hj.
    apply batch_at_total; [exact Hne| |].
    + intros hs Hhs. specialize (proj1 (Forall_forall _ _) Hall' hs Hhs). simpl. lia.
    + intros hs1 hs2 s1 s2. apply Hshape. lia.
Qed.

End RegroupFacts.

(** ** [unbatch_hypotheses]: where the per-input hypotheses come from *)

Section UnbatchFacts.

Variables Hidden Attn : Type.

Lemma grows_refl (P : nat -> Single Hidden Attn -> Prop) acc : grows P acc acc.
Proof.
  split; [reflexivity|]. intros k row Hk. exists row, [].
  rewrite app_nil_r. repeat split; auto. intros x [].
Qed.

Lemma grows_trans (P Q : nat -> Single Hidden Attn -> Prop) acc1 acc2 acc3 :
  grows P acc1 acc2 -> grows Q acc2 acc3 ->
  grows (fun k x => P k x \/ Q k x) acc1 acc3.
Proof.
  intros [L1 G1] [L2 G2]. split; [congruence|].
  intros k row3 H3.
  destruct (G2 k row3 H3) as (row2 & e2 & H2 & -> & HQ).
  destruct (G1 k row2 H2) as (row1 & e1 & H1 & -> & HP).
  exists row1, (e1 ++ e2). rewrite app_assoc. repeat split; auto.
  intros x Hx. apply in_app_iff in Hx as [Hx|Hx]; auto.
Qed.

Lemma grows_impl (P Q : nat -> Single Hidden Attn -> Prop) acc acc' :
  (forall k x, P k x -> Q k x) -> grows P acc acc' -> grows Q acc acc'.
Proof.
  intros HPQ [L G]. split; [exact L|].
  intros k row' Hk. destruct (G k row' Hk) as (row & extra & H1 & H2 & H3).
  exists row, extra. auto.
Qed.

(** What is in a list stays in it while the lists grow. *)
Lemma grows_keeps (P : nat -> Single Hidden Attn -> Prop) acc acc' k row x :
  grows P acc acc' -> nth_error acc k = Some row -> In x row ->
  exists row', nth_error acc' k = Some row' /\ In x row'.
Proof.
  intros [L G] Hk Hx.
  destruct (nth_error acc' k) as [row'|] eqn:E.
  - destruct (G k row' E) as (row0 & extra & H0 & -> & _).
    exists (row0 ++ extra). split; [reflexivity|].
    apply in_app_iff. left. congruence.
  - apply nth_error_None in E.
    assert (k < List.length acc) by (apply nth_error_Some; congruence). lia.
Qed.

Lemma append_at_spec (acc : list (list (Single Hidden Attn))) i s acc' :
  append_at acc i s = inr acc' ->
  List.length acc' = List.length acc /\
  exists row, nth_error acc i = Some row /\
    forall k, nth_error acc' k
              = if Nat.eqb k i then Some (row ++ [s]) else nth_error acc k.
Proof.
  unfold append_at. intros H. inv_bind H. inversion H; subst.
  apply index_inr in Hbind.
  assert (Hi : i < List.length acc) by (apply nth_error_Some; congruence).
  split; [now apply length_replace|].
  exists a. split; [exact Hbind|]. intros k. now apply nth_error_replace.
Qed.

Lemma append_at_grows (P : nat -> Single Hidden Attn -> Prop) acc i s acc' :
  append_at acc i s = inr acc' -> P i s -> grows P acc acc'.
Proof.
  intros H HP. apply append_at_spec in H as (L & row & Hrow & Hnth).
  split; [exact L|]. intros k row' Hk. rewrite Hnth in Hk.
  destruct (Nat.eqb_spec k i) as [->|Hne].
  - inversion Hk; subst. exists row, [s]. repeat split; auto.
    intros x [<-|[]]. exact HP.
  - exists row', []. rewrite app_nil_r. repeat split; auto. intros x [].
Qed.

Section OneBatch.

Variable h : Batched Hidden Attn.

Lemma rows_grow (idx : list nat) acc acc' :
  foldM (file_entry h) acc idx = inr acc' ->
  grows (fun k x => single_at h k = inr x) acc acc'.
Proof.
  revert acc. induction idx as [|i idx IH]; intros acc H; simpl in H.
  - inversion H; subst. apply grows_refl.
  - inv_bind H. unfold file_entry in Hbind. inv_bind Hbind.
    eapply grows_impl; [|eapply grows_trans; [|apply (IH _ H)]].
    + intros k x [Hx|Hx]; exact Hx.
    + eapply append_at_grows; eassumption.
Qed.

Lemma rows_cover (idx : list nat) acc acc' :
  foldM (file_entry h) acc idx = inr acc' ->
  forall i s, In i idx -> single_at h i = inr s ->
  exists row', nth_error acc' i = Some row' /\ In s row'.
Proof.
  revert acc. induction idx as [|i0 idx IH]; intros acc H i s Hi Hs;
    simpl in H; [destruct Hi|].
  inv_bind H. destruct Hi as [->|Hi]; [|eapply IH; eassumption].
  unfold file_entry in Hbind. inv_bind Hbind.
  assert (a0 = s) by congruence. subst a0.
  apply append_at_spec in Hbind as (L & row & Hrow & Hnth).
  eapply grows_keeps; [apply (rows_grow _ _ H)| |].
  - rewrite Hnth, Nat.eqb_refl. reflexivity.
  - apply in_app_iff. right. now left.
Qed.

Lemma unbatch_one_grows acc acc' :
  unbatch_one acc h = inr acc' ->
  grows (fun k x => single_at h k = inr x) acc acc'.
Proof.
  unfold unbatch_one. intros H. inv_bind H. eapply rows_grow. exact H.
Qed.

Lemma unbatch_one_covers acc acc' i s :
  unbatch_one acc h = inr acc' -> single_at h i = inr s ->
  exists row', nth_error acc' i = Some row' /\ In s row'.
Proof.
  unfold unbatch_one. intros H Hs. inv_bind H.
  eapply rows_cover; [exact H| |exact Hs].
  apply single_at_inr in Hs as (_ & _ & _ & _ & Hp).
  destruct (probability h) as [p|ps]; simpl in *; [discriminate|].
  inversion Hbind; subst. apply index_inr in Hp.
  apply in_seq. split; [lia|]. simpl. apply nth_error_Some. congruence.
Qed.

End OneBatch.

Lemma batches_grow (hs : list (Batched Hidden Attn)) acc acc' :
  foldM (@unbatch_one _ _) acc hs = inr acc' ->
  grows (fun k x => exists h, In h hs /\ single_at h k = inr x) acc acc'.
Proof.
  revert acc. induction hs as [|h hs IH]; intros acc H; simpl in H.
  - inversion H; subst. apply grows_refl.
  - inv_bind H.
    eapply grows_impl; [|eapply grows_trans;
                          [apply (unbatch_one_grows _ _ Hbind) | apply (IH _ H)]].
    intros k x [Hx|(h' & Hh' & Hx)]; [exists h | exists h']; simpl; auto.
Qed.

Lemma batches_cover (hs : list (Batched Hidden Attn)) acc acc' h i s :
  foldM (@unbatch_one _ _) acc hs = inr acc' ->
  In h hs -> single_at h i = inr s ->
  exists row', nth_error acc' i = Some row' /\ In s row'.
Proof.
  revert acc. induction hs as [|h0 hs IH]; intros acc H Hh Hs;
    simpl in H; [destruct Hh|].
  inv_bind H. destruct Hh as [->|Hh]; [|eapply IH; eassumption].
  destruct (unbatch_one_covers _ _ _ Hbind Hs) as (row & Hrow & Hin).
  eapply grows_keeps; [apply (batches_grow _ _ H) | exact Hrow | exact Hin].
Qed.

(** Every hypothesis that [unbatch_hypotheses] files under input [i] is
    entry [i] of one of the batched hypotheses. *)
Lemma unbatch_hypotheses_sound (hs : list (Batched Hidden Attn)) by_seq i row x :
  unbatch_hypotheses hs = inr by_seq ->
  nth_error by_seq i = Some row -> In x row ->
  exists h, In h hs /\ single_at h i = inr x.
Proof.
  unfold unbatch_hypotheses. destruct hs as [|h0 hs'].
  - intros H. inversion H; subst. destruct i; discriminate.
  - intros H Hrow Hx. inv_bind H.
    apply batches_grow in H as [L G].
    destruct (G i row Hrow) as (row0 & extra & H0 & -> & Hextra).
    apply nth_error_In, repeat_spec in H0. subst row0.
    simpl in Hx. auto.
Qed.

(** Entry [i] of every batched hypothesis is filed under input [i]. *)
Lemma unbatch_hypotheses_complete (hs : list (Batched Hidden Attn)) by_seq h i s :
  unbatch_hypotheses hs = inr by_seq ->
  In h hs -> single_at h i = inr s ->
  exists row, nth_error by_seq i = Some row /\ In s row.
Proof.
  unfold unbatch_hypotheses. destruct hs as [|h0 hs'].
  - intros _ [].
  - intros H Hh Hs. inv_bind H. eapply batches_cover; eassumption.
Qed.

End UnbatchFacts.

(** ** [pick_top_k_unique] *)

Section PickFacts.

Variables Hidden Attn : Type.

(** Entry [i] of the [j]-th returned hypothesis is the [j]-th hypothesis
    that the walk kept for input [i]. *)
Lemma kept_row (hypotheses : list (Batched Hidden Attn)) count out j b i r :
  pick_top_k_unique hypotheses count = inr out ->
  nth_error out j = Some b ->
  nth_error (seq_full b) i = Some r ->
  exists by_seq row s,
    unbatch_hypotheses hypotheses = inr by_seq /\
    nth_error by_seq i = Some row /\
    nth_error (keep_unique count [] (sorted_desc (@s_probability _ _) row)) j
    = Some s /\
    s_full s = r /\ single_at b i = inr s.
Proof.
  unfold pick_top_k_unique. intros H Hj Hr. inv_bind H.
  apply batch_single_hypotheses_spec in H as (m & _ & _ & Hat).
  apply Hat, batch_at_spec in Hj as (col & HF & ->). simpl in Hr.
  rewrite nth_error_map in Hr.
  destruct (nth_error col i) as [s|] eqn:Hs; [|discriminate].
  inversion Hr; subst r.
  destruct (Forall2_nth_error_r HF _ Hs) as (hs & Hhs & Hsj).
  rewrite !nth_error_map in Hhs.
  destruct (nth_error a i) as [row|] eqn:Hrow; [|discriminate].
  inversion Hhs; subst hs.
  exists a, row, s. repeat split; auto. now apply single_at_stacked.
Qed.

(** Claim C4: in every output of [pick_top_k_unique] and at every input
    position, two returned hypotheses never carry the same full token
    sequence. *)
Theorem pick_top_k_unique_no_duplicates
  (hypotheses : list (Batched Hidden Attn)) (count : nat)
  (out : list (Batched Hidden Attn)) :
  pick_top_k_unique hypotheses count = inr out ->
  forall i j k b_j b_k row,
    nth_error out j = Some b_j -> nth_error out k = Some b_k ->
    nth_error (seq_full b_j) i = Some row ->
    nth_error (seq_full b_k) i = Some row ->
    j = k.
Proof.
  intros H i j k b_j b_k row Hj Hk Hrj Hrk.
  edestruct kept_row as (by1 & row1 & s1 & U1 & R1 & K1 & F1 & _);
    [exact H | exact Hj | exact Hrj |].
  edestruct kept_row as (by2 & row2 & s2 & U2 & R2 & K2 & F2 & _);
    [exact H | exact Hk | exact Hrk |].
  assert (by2 = by1) by congruence. subst by2.
  assert (row2 = row1) by congruence. subst row2.
  pose proof (@keep_unique_NoDup Hidden Attn count
                (sorted_desc (@s_probability _ _) row1) [] (NoDup_nil _)) as Hnd.
  apply (proj1 (NoDup_nth_error _) Hnd).
  - rewrite length_map. apply nth_error_Some. congruence.
  - rewrite !nth_error_map, K1, K2. simpl. congruence.
Qed.

End PickFacts.

(** ** One round of expansion *)

Lemma In_firstn (A : Type) (n : nat) (xs : list A) (x : A) :
  In x (firstn n xs) -> In x xs.
Proof.
  intros H. rewrite <- (firstn_skipn n xs). apply in_or_app. now left.
Qed.

Lemma cat_column_spec (rows : list (list Z)) (top_id : list Z) rows' :
  cat_column rows top_id = inr rows' ->
  List.length rows' = List.length rows /\
  forall i rc, nth_error rows' i = Some rc ->
    exists rp tok,
      nth_error rows i = Some rp /\ nth_error top_id i = Some tok /\
      rc = rp ++ [tok].
Proof.
  unfold cat_column.
  destruct (Nat.eqb_spec (List.length rows) (List.length top_id)) as [E|];
    [|discriminate].
  intros H. inversion H; subst rows'. clear H. split.
  - rewrite length_map, length_combine. lia.
  - revert top_id E. induction rows as [|r rows IH]; intros [|t top_id] E i rc;
      simpl in *; try discriminate.
    + destruct i; discriminate.
    + destruct i as [|i]; simpl.
      * intros H. inversion H. eauto.
      * apply IH. lia.
Qed.

(** The weights of a softmax row are fractions of their sum. *)
Lemma weight_le_sum (ws : list Q) (w : Q) :
  (forall v, In v ws -> (0 < v)%Q) -> In w ws ->
  (w <= fold_right Qplus 0 ws)%Q.
Proof.
  induction ws as [|v ws IH]; intros Hpos Hin; [destruct Hin|].
  assert (Hsum : (0 <= fold_right Qplus 0 ws)%Q).
  { clear IH Hin. induction ws as [|u ws IH]; simpl; [lra|].
    assert (0 < u)%Q by (apply Hpos; simpl; auto).
    assert (0 <= fold_right Qplus 0 ws)%Q.
    { apply IH. intros v' [->|Hv']; apply Hpos; simpl; auto. }
    lra. }
  simpl. destruct Hin as [->|Hin].
  - lra.
  - assert (0 < v)%Q by (apply Hpos; simpl; auto).
    assert (w <= fold_right Qplus 0 ws)%Q by (apply IH; auto; intros; apply Hpos; simpl; auto).
    lra.
Qed.

Lemma softmax_row_range (e : Q -> Q) (row : list Q) (q : Q) :
  (forall x, (0 < e x)%Q) -> In q (softmax_row e row) ->
  (0 <= q <= 1)%Q.
Proof.
  intros Hpos Hq. unfold softmax_row in Hq.
  apply in_map_iff in Hq as (w & <- & Hw).
  assert (Hw0 : (0 < w)%Q).
  { apply in_map_iff in Hw as (x & <- & _). apply Hpos. }
  assert (Hle : (w <= fold_right Qplus 0 (map e row))%Q).
  { apply weight_le_sum; [|exact Hw].
    intros v Hv. apply in_map_iff in Hv as (x & <- & _). apply Hpos. }
  split.
  - apply Qle_shift_div_l; lra.
  - apply Qle_shift_div_r; lra.
Qed.

Lemma topk_In (row : list Q) (k : nat) tops q id :
  topk row k = inr tops -> In (q, id) tops -> In q row.
Proof.
  unfold topk. destruct (Nat.ltb (List.length row) k); [discriminate|].
  intros H Hin. inversion H; subst tops.
  apply In_firstn, sorted_desc_In in Hin.
  eapply in_combine_l; eassumption.
Qed.

Lemma prob_mul_spec (p : Prob) (top_prob : list Q) probs i ci :
  prob_mul p top_prob = inr probs ->
  nth_error probs i = Some ci ->
  exists pi ti,
    broadcast_entry p i = Some pi /\ In ti top_prob /\ ci = (pi * ti)%Q.
Proof.
  assert (Hmap : forall x, nth_error (map (Qmult x) top_prob) i = Some ci ->
                   exists ti, In ti top_prob /\ ci = (x * ti)%Q).
  { intros x H. rewrite nth_error_map in H.
    destruct (nth_error top_prob i) as [t|] eqn:E; [|discriminate].
    inversion H. exists t. split; [eapply nth_error_In; eassumption | reflexivity]. }
  assert (Hzip : forall ps,
             nth_error (map (fun xt => (fst xt * snd xt)%Q) (combine ps top_prob)) i
             = Some ci ->
             exists pi ti, nth_error ps i = Some pi /\ In ti top_prob /\
                           ci = (pi * ti)%Q).
  { clear Hmap. revert i. induction top_prob as [|t ts IH]; intros i ps H.
    - destruct ps; destruct i; discriminate.
    - destruct ps as [|x ps]; [destruct i; discriminate|].
      destruct i as [|i]; simpl in H.
      + inversion H. exists x, t. simpl. auto.
      + destruct (IH i ps H) as (pi & ti & H1 & H2 & H3).
        exists pi, ti. simpl. auto. }
  assert (Hone : forall ps t,
             nth_error (map (fun x => (x * t)%Q) ps) i = Some ci ->
             exists pi, nth_error ps i = Some pi /\ ci = (pi * t)%Q).
  { intros ps t H. rewrite nth_error_map in H.
    destruct (nth_error ps i) as [x|]; [|discriminate].
    inversion H. eauto. }
  destruct p as [x|ps]; simpl.
  - intros H Hi. inversion H; subst probs.
    destruct (Hmap x Hi) as (ti & ? & ?). eauto.
  - destruct ps as [|x [|y ps]].
    + destruct top_prob as [|t [|t' ts]]; simpl; intros H Hi;
        inversion H; subst probs; destruct i; discriminate.
    + intros H Hi. inversion H; subst probs.
      destruct (Hmap x Hi) as (ti & ? & ?). eauto.
    + destruct top_prob as [|t [|t' ts]].
      * simpl. discriminate.
      * intros H Hi. inversion H; subst probs.
        destruct (Hone (x :: y :: ps) t Hi) as (pi & ? & ?).
        exists pi, t. simpl. auto.
      * destruct (Nat.eqb _ _); [|discriminate].
        intros H Hi. inversion H; subst probs.
        destruct (Hzip (x :: y :: ps) Hi) as (pi & ti & ? & ? & ?). eauto.
Qed.

Section ExpandFacts.

Variables Image Feat Hidden Attn : Type.
Variable C : Collaborators Image Feat Hidden Attn.

Lemma child_spec (parent : Batched Hidden Attn) next_hidden alpha tops j c :
  child parent next_hidden alpha tops j = inr c ->
  exists next_sequence probs,
    cat_column (seq_full parent)
      (map (fun row => snd (nth j row (0%Q, 0%Z))) tops) = inr next_sequence /\
    prob_mul (probability parent)
      (map (fun row => fst (nth j row (0%Q, 0%Z))) tops) = inr probs /\
    c = mkBatched next_sequence next_hidden (fst alpha) (snd alpha)
          (PTensor probs).
Proof.
  unfold child. intros H. inv_bind H. inversion H. eauto.
Qed.

(** Every child of [expand] is built by [child] from the top-k rows of
    the softmax of one forward call. *)
Lemma expand_children enc_low_res enc_high_res beam_width
  (parent : Batched Hidden Attn) children alpha' c :
  expand C enc_low_res enc_high_res beam_width parent = inr (children, alpha') ->
  In c children ->
  exists previous out next_hidden tops j,
    dec_forward C previous (hidden parent) enc_low_res enc_high_res
      (attn_low parent, attn_high parent) = (out, next_hidden, alpha') /\
    Forall2 (fun row t => topk row beam_width = inr t)
      (map (softmax_row (exp_ C)) out) tops /\
    j < beam_width /\
    child parent next_hidden alpha' tops j = inr c.
Proof.
  unfold expand. intros H Hc. inv_bind H.
  destruct (dec_forward C a (hidden parent) enc_low_res enc_high_res
              (attn_low parent, attn_high parent))
    as [[out next_hidden] alpha1] eqn:E.
  inv_bind H. inversion H; subst. clear H.
  apply mapM_Forall2 in Hbind0, Hbind1.
  destruct (Forall2_In_r c Hbind1 Hc) as (j & Hj & Hchild).
  apply in_seq in Hj.
  exists a, out, next_hidden, a0, j. repeat split; auto. lia.
Qed.

(** The rows of a child are the rows of its parent, each with one
    token appended. *)
Lemma expand_child_rows enc_low_res enc_high_res beam_width
  (parent : Batched Hidden Attn) children alpha' c :
  expand C enc_low_res enc_high_res beam_width parent = inr (children, alpha') ->
  In c children ->
  List.length (seq_full c) = List.length (seq_full parent) /\
  forall i row, nth_error (seq_full c) i = Some row ->
    exists row_parent tok,
      nth_error (seq_full parent) i = Some row_parent /\
      row = row_parent ++ [tok].
Proof.
  intros H Hc.
  edestruct expand_children
    as (previous & out & next_hidden & tops & j & _ & _ & _ & Hchild);
    [exact H | exact Hc |].
  apply child_spec in Hchild as (next & probs & Hcat & _ & ->). simpl.
  apply cat_column_spec in Hcat as (Hlen & Hrows). split; [exact Hlen|].
  intros i row Hi. destruct (Hrows i row Hi) as (rp & tok & Hrp & _ & ->).
  eauto.
Qed.

(** Claim C8: every child produced by one round of expansion has, for
    every input, the sequence of its parent with one token appended, so its
    length is the length of the parent's sequence plus one. *)
Theorem child_sequence_one_longer enc_low_res enc_high_res beam_width
  (parent : Batched Hidden Attn) children alpha' :
  expand C enc_low_res enc_high_res beam_width parent = inr (children, alpha') ->
  forall c, In c children ->
    List.length (seq_full c) = List.length (seq_full parent) /\
    forall i row, nth_error (seq_full c) i = Some row ->
      exists row_parent,
        nth_error (seq_full parent) i = Some row_parent /\
        List.length row = List.length row_parent + 1.
Proof.
  intros H c Hc.
  edestruct expand_child_rows as (Hlen & Hrows); [exact H | exact Hc |].
  split; [exact Hlen|].
  intros i row Hi. destruct (Hrows i row Hi) as (rp & tok & Hrp & ->).
  exists rp. split; [exact Hrp|]. rewrite length_app. reflexivity.
Qed.

(** The conditional probabilities taken from the top-k of a softmax lie
    between 0 and 1. *)
Lemma top_prob_range beam_width (out : list (list Q)) tops j t :
  (forall x, (0 < exp_ C x)%Q) ->
  Forall2 (fun row tk => topk row beam_width = inr tk)
    (map (softmax_row (exp_ C)) out) tops ->
  In t (map (fun row => fst (nth j row (0%Q, 0%Z))) tops) ->
  (0 <= t <= 1)%Q.
Proof.
  intros Hpos HF Ht. apply in_map_iff in Ht as (tk & <- & Htk).
  destruct (nth_in_or_default j tk (0%Q, 0%Z)) as [Hin|Hd];
    [|rewrite Hd; simpl; lra].
  destruct (Forall2_In_r tk HF Htk) as (srow & Hsrow & Htop).
  apply in_map_iff in Hsrow as (row & <- & _).
  destruct (nth j tk (0%Q, 0%Z)) as [q id]. simpl.
  eapply softmax_row_range; [exact Hpos|]. eapply topk_In; eassumption.
Qed.

(** Claim C6: a child's probability is its parent's probability times a
    conditional probability read off a softmax, so for a parent whose
    probability is not negative the child's probability is at most the
    parent's, for every input of the batch. *)
Theorem child_probability_le_parent enc_low_res enc_high_res beam_width
  (parent : Batched Hidden Attn) children alpha' :
  (forall x, (0 < exp_ C x)%Q) ->
  (forall i p, broadcast_entry (probability parent) i = Some p -> (0 <= p)%Q) ->
  expand C enc_low_res enc_high_res beam_width parent = inr (children, alpha') ->
  forall c i p_child, In c children ->
    prob_index (probability c) i = inr p_child ->
    exists p_parent,
      broadcast_entry (probability parent) i = Some p_parent /\
      (p_child <= p_parent)%Q.
Proof.
  intros Hpos Hparent H c i p_child Hc Hi.
  edestruct expand_children
    as (previous & out & next_hidden & tops & j & _ & HF & _ & Hchild);
    [exact H | exact Hc |].
  apply child_spec in Hchild as (next & probs & _ & Hmul & ->).
  simpl in Hi. apply index_inr in Hi.
  edestruct prob_mul_spec as (pp & t & Hpp & Ht & ->);
    [exact Hmul | exact Hi |].
  exists pp. split; [exact Hpp|].
  pose proof (Hparent i pp Hpp) as Hpp0.
  edestruct top_prob_range as [Ht0 Ht1]; [exact Hpos | exact HF | exact Ht |].
  nra.
Qed.

End ExpandFacts.

(** ** The decode driver *)

(** Claim C1: for every image batch and every beam width [evaluate] raises
    [TypeError] at its first statement, the call [DataLoader()] without a
    dataset; it runs no beam step, computes no view and returns no
    sequence. *)
Theorem evaluate_raises_type_error
  (Image Feat Hidden Attn : Type) (C : Collaborators Image Feat Hidden Attn)
  (test_img : list Image) (beam_width : nat) :
  evaluate C test_img beam_width = inl TypeError.
Proof. reflexivity. Qed.

(** ** Markdown tables *)

Section MarkdownFacts.

Import Markdown.

Open Scope string_scope.

Lemma length_append (a b : string) :
  String.length (a ++ b) = String.length a + String.length b.
Proof. induction a as [|c a IH]; simpl; [reflexivity | now rewrite IH]. Qed.

Lemma length_repeat_char (c : ascii) (n : nat) :
  String.length (repeat_char c n) = n.
Proof. induction n as [|n IH]; simpl; [reflexivity | now rewrite IH]. Qed.

Lemma length_rjust (width : nat) (s : string) :
  String.length (rjust width s) = Nat.max width (String.length s).
Proof. unfold rjust. rewrite length_append, length_repeat_char. lia. Qed.

Lemma length_delimiter_of (line : string) :
  String.length (delimiter_of line) = String.length line.
Proof. induction line as [|c line IH]; simpl; [reflexivity | now rewrite IH]. Qed.

Lemma length_header_line (model_pad : nat) (m token no_special symbol : string) :
  String.length (header_line model_pad m token no_special symbol)
  = Nat.max model_pad (String.length m) + String.length token
    + String.length no_special + String.length symbol + 13.
Proof.
  unfold header_line. rewrite !length_append, length_rjust. simpl. lia.
Qed.

Lemma length_value_line (model_pad p1 p2 p3 : nat) (m v1 v2 v3 : string) :
  String.length (value_line model_pad p1 p2 p3 m v1 v2 v3)
  = Nat.max model_pad (String.length m) + Nat.max p1 (String.length v1)
    + Nat.max p2 (String.length v2) + Nat.max p3 (String.length v3) + 13.
Proof.
  unfold value_line. rewrite !length_append, !length_rjust. simpl. lia.
Qed.

Lemma fold_max_spec (ns : list nat) (n : nat) :
  Forall (fun k => k <= fold_left Nat.max ns n) (n :: ns) /\
  In (fold_left Nat.max ns n) (n :: ns).
Proof.
  revert n. induction ns as [|k ns IH]; intros n; simpl.
  - split; [repeat constructor | auto].
  - destruct (IH (Nat.max n k)) as (Hall & Hin).
    apply Forall_cons_iff in Hall as [Hmax Hall]. split.
    + constructor; [lia|]. constructor; [lia | exact Hall].
    + destruct Hin as [Hin|Hin]; [|now right; right].
      destruct (Nat.max_spec n k) as [[_ E]|[_ E]];
        [right; left | left]; congruence.
Qed.

(** The width of the model column: the longest of the header and the
    checkpoint names. *)
Lemma max_of_names (results : list (string * Result)) :
  results <> [] ->
  exists key_pad,
    max_of (map (fun nr => String.length (fst nr)) results) = inr key_pad /\
    (forall name r, In (name, r) results -> String.length name <= key_pad) /\
    (exists name r, In (name, r) results /\ String.length name = key_pad).
Proof.
  destruct results as [|[name0 r0] results]; [congruence|]. intros _.
  simpl. eexists. split; [reflexivity|].
  destruct (fold_max_spec
              (map (fun nr : string * Result => String.length (fst nr)) results)
              (String.length name0)) as (Hall & Hin).
  split.
  - intros name r Hnr.
    apply (proj1 (Forall_forall _ _) Hall).
    change (In (String.length (fst (name, r)))
              (map (fun nr : string * Result => String.length (fst nr))
                 ((name0, r0) :: results))).
    exact (in_map (fun nr : string * Result => String.length (fst nr))
             ((name0, r0) :: results) (name, r) Hnr).
  - change (In (fold_left Nat.max
                  (map (fun nr : string * Result => String.length (fst nr)) results)
                  (String.length name0))
              (map (fun nr : string * Result => String.length (fst nr))
                 ((name0, r0) :: results))) in Hin.
    apply in_map_iff in Hin as ([name r] & E & Hnr). exists name, r. auto.
Qed.


Lemma table_lines_shape (model_pad : nat) (h1 h2 h3 : string)
  (pick : Result -> Stats.Views Q) (results : list (string * Result)) :
  String.length model <= model_pad ->
  (forall name r, In (name, r) results -> String.length name <= model_pad) ->
  table_shape model_pad h1 h2 h3 pick results
    (table_lines model_pad h1 h2 h3 pick results).
Proof.
  intros Hmodel Hnames. unfold table_shape, table_lines.
  do 3 eexists. split; [reflexivity|]. split; [reflexivity|].
  split; [apply length_delimiter_of|]. split; [apply length_map|].
  intros k name r Hk. do 4 eexists.
  split; [reflexivity|]. split; [reflexivity|]. split; [reflexivity|].
  split; [rewrite nth_error_map, Hk; reflexivity|].
  split; [reflexivity|].
  pose proof (Hnames name r (nth_error_In _ _ Hk)) as Hname.
  change (String.length
            (value_line model_pad (String.length h1) (String.length h2)
               (String.length h3) (fst (name, r))
               (to_percent (Stats.full (pick (snd (name, r)))) 2)
               (to_percent (Stats.removed (pick (snd (name, r)))) 2)
               (to_percent (Stats.symbols (pick (snd (name, r)))) 2))
          = String.length (header_line model_pad model h1 h2 h3)
            + (String.length (to_percent (Stats.full (pick r)) 2)
               - String.length h1)
            + (String.length (to_percent (Stats.removed (pick r)) 2)
               - String.length h2)
            + (String.length (to_percent (Stats.symbols (pick r)) 2)
               - String.length h3) /\
          (String.length
             (value_line model_pad (String.length h1) (String.length h2)
                (String.length h3) (fst (name, r))
                (to_percent (Stats.full (pick (snd (name, r)))) 2)
                (to_percent (Stats.removed (pick (snd (name, r)))) 2)
                (to_percent (Stats.symbols (pick (snd (name, r)))) 2))
           = String.length (header_line model_pad model h1 h2 h3) <->
           String.length (to_percent (Stats.full (pick r)) 2)
           <= String.length h1 /\
           String.length (to_percent (Stats.removed (pick r)) 2)
           <= String.length h2 /\
           String.length (to_percent (Stats.symbols (pick r)) 2)
           <= String.length h3)).
  rewrite length_value_line, length_header_line. simpl fst. simpl snd.
  split; [lia|]. split; [intros H; lia | intros H; lia].
Qed.

(** Claim C9, as the tables are built: for a non-empty results mapping the
    model column is as wide as the longest of its header and the checkpoint
    names, while each cell of the three value columns is padded to the
    length of the header of its column only.  A value longer than its
    header is not padded and makes its row longer than the header line by
    the excess, so a row is aligned with the header line exactly when none
    of its three values is longer than its header. *)
Theorem create_markdown_tables_aligned (results : list (string * Result)) :
  results <> [] ->
  exists model_pad err_lines correct_lines,
    create_markdown_tables results
    = inr (String.concat newline err_lines, String.concat newline correct_lines) /\
    String.length model <= model_pad /\
    (forall name r, In (name, r) results -> String.length name <= model_pad) /\
    (model_pad = String.length model \/
     exists name r, In (name, r) results /\ String.length name = model_pad) /\
    table_shape model_pad err_token err_no_special err_symbol error
      results err_lines /\
    table_shape model_pad correct_token correct_no_special correct_symbol
      correct_percent results correct_lines.
Proof.
  intros Hne.
  destruct (max_of_names Hne) as (key_pad & Hmax & Hle & (name0 & r0 & Hin0 & Hlen0)).
  exists (Nat.max (String.length model) key_pad).
  exists (table_lines (Nat.max (String.length model) key_pad)
            err_token err_no_special err_symbol error results).
  exists (table_lines (Nat.max (String.length model) key_pad)
            correct_token correct_no_special correct_symbol correct_percent
            results).
  assert (Hnames : forall name r, In (name, r) results ->
            String.length name <= Nat.max (String.length model) key_pad).
  { intros name r Hnr. specialize (Hle name r Hnr). lia. }
  split; [unfold create_markdown_tables; rewrite Hmax; reflexivity|].
  split; [lia|].
  split; [exact Hnames|].
  split.
  { destruct (Nat.max_spec (String.length model) key_pad) as [[_ E]|[_ E]].
    - right. exists name0, r0. split; [exact Hin0 | congruence].
    - left. exact E. }
  split; apply table_lines_shape; auto; lia.
Qed.

Lemma create_markdown_tables_aligned_witness :
  Fixture.two_checkpoints <> [] /\
  exists model_pad err_lines correct_lines,
    create_markdown_tables Fixture.two_checkpoints
    = inr (String.concat newline err_lines, String.concat newline correct_lines) /\
    model_pad = 15 /\
    List.length err_lines = 4 /\
    List.length correct_lines = 4.
Proof.
  assert (Hne : Fixture.two_checkpoints <> []) by discriminate.
  split; [exact Hne|].
  destruct (create_markdown_tables_aligned Hne)
    as (model_pad & err_lines & correct_lines & Htab & _ & Hle & Hpad
        & Herr & Hcorrect).
  assert (Epad : model_pad = 15).
  { destruct Hpad as [Hpad|(name & r & [E|[E|[]]] & Hlen)].
    - specialize (Hle _ _ (or_intror (or_introl eq_refl))).
      rewrite Hpad in Hle. vm_compute in Hle. lia.
    - inversion E; subst name.
      specialize (Hle _ _ (or_intror (or_introl eq_refl))).
      rewrite <- Hlen in Hle. vm_compute in Hle. lia.
    - inversion E; subst name. rewrite <- Hlen. reflexivity. }
  exists model_pad, err_lines, correct_lines.
  split; [exact Htab|]. split; [exact Epad|].
  destruct Herr as (h & d & rows & -> & _ & _ & Hrows & _).
  destruct Hcorrect as (h' & d' & rows' & -> & _ & _ & Hrows' & _).
  simpl. rewrite Hrows, Hrows'. split; reflexivity.
Defined.

(** Claim C9 as stated fails when a value prints wider than its header:
    the error rate 10^10 prints as 17 characters under the 16 characters
    of "Token error rate", the value cell is not padded to a common width,
    and the two lines differ in length. *)
Lemma create_markdown_tables_overflow :
  exists header delimiter row correct_table,
    create_markdown_tables Fixture.wide
    = inr (String.concat newline [header; delimiter; row], correct_table) /\
    String.length (to_percent (inject_Z (10 ^ 10)) 2) = 17 /\
    String.length err_token = 16 /\
    String.length header = 87 /\
    String.length row = 88 /\
    ~ (forall line1 line2,
         In line1 [header; delimiter; row] -> In line2 [header; delimiter; row] ->
         String.length line1 = String.length line2).
Proof.
  exists (header_line 5 model err_token err_no_special err_symbol).
  exists (delimiter_of (header_line 5 model err_token err_no_special err_symbol)).
  exists (value_line 5 16 36 17 "m" (to_percent (inject_Z (10 ^ 10)) 2)
            (to_percent 0 2) (to_percent 0 2)).
  eexists. split; [vm_compute; reflexivity|].
  split; [vm_compute; reflexivity|].
  split; [reflexivity|].
  split; [reflexivity|].
  split; [reflexivity|].
  intros Hall.
  specialize (Hall _ _ (or_introl eq_refl) (or_intror (or_intror (or_introl eq_refl)))).
  vm_compute in Hall. discriminate.
Qed.

End MarkdownFacts.

(** ** The properties on the fixture *)

Lemma weight_pos (x : Q) : (0 < Fixture.weight x)%Q.
Proof.
  unfold Fixture.weight. destruct (Qle_bool x 0) eqn:E.
  - reflexivity.
  - apply Qnot_le_lt. intros Hle. apply Qle_bool_iff in Hle. congruence.
Qed.

Lemma pick_top_k_unique_no_duplicates_witness :
  pick_top_k_unique Fixture.candidates 2 = inr Fixture.survivors /\
  forall i j k b_j b_k row,
    nth_error Fixture.survivors j = Some b_j ->
    nth_error Fixture.survivors k = Some b_k ->
    nth_error (seq_full b_j) i = Some row ->
    nth_error (seq_full b_k) i = Some row ->
    j = k.
Proof.
  split; [reflexivity|].
  apply (@pick_top_k_unique_no_duplicates unit unit Fixture.candidates 2
           Fixture.survivors).
  reflexivity.
Defined.

Lemma batch_single_hypotheses_min_common_witness :
  Fixture.ragged <> [] /\
  map (@List.length _) Fixture.ragged = [2; 1] /\
  exists batched,
    batch_single_hypotheses Fixture.ragged = inr batched /\
    List.length batched = 1.
Proof.
  assert (Hne : Fixture.ragged <> []) by discriminate.
  split; [exact Hne|]. split; [reflexivity|].
  destruct (@batch_single_hypotheses_min_common unit unit Fixture.ragged Hne)
    as (m & Hmin & _ & _ & Hall & Htotal).
  vm_compute in Hmin. inversion Hmin; subst m.
  destruct Htotal as (batched & Hb).
  - intros j hs1 hs2 s1 s2 Hj [<-|[<-|[]]] [<-|[<-|[]]] H1 H2;
      destruct j as [|j]; try lia; simpl in H1, H2;
      inversion H1; inversion H2; reflexivity.
  - exists batched. split; [exact Hb|]. exact (proj1 (Hall batched Hb)).
Defined.

Lemma child_sequence_one_longer_witness :
  expand Fixture.model tt tt 2 Fixture.seed
  = inr ([Fixture.first_child; Fixture.second_child], ([tt], [tt])) /\
  List.length (seq_full Fixture.first_child) = List.length (seq_full Fixture.seed) /\
  forall i row, nth_error (seq_full Fixture.first_child) i = Some row ->
    exists row_parent,
      nth_error (seq_full Fixture.seed) i = Some row_parent /\
      List.length row = List.length row_parent + 1.
Proof.
  assert (H : expand Fixture.model tt tt 2 Fixture.seed
              = inr ([Fixture.first_child; Fixture.second_child], ([tt], [tt])))
    by (vm_compute; reflexivity).
  split; [exact H|].
  apply (child_sequence_one_longer Fixture.model tt tt 2 Fixture.seed H).
  simpl; auto.
Defined.

Lemma child_probability_le_parent_witness :
  (forall x, (0 < exp_ Fixture.model x)%Q) /\
  (forall i p, broadcast_entry (probability Fixture.seed) i = Some p -> (0 <= p)%Q) /\
  expand Fixture.model tt tt 2 Fixture.seed
  = inr ([Fixture.first_child; Fixture.second_child], ([tt], [tt])) /\
  exists p_parent,
    broadcast_entry (probability Fixture.seed) 0 = Some p_parent /\
    (1536 # 2560 <= p_parent)%Q.
Proof.
  assert (Hpos : forall x, (0 < exp_ Fixture.model x)%Q) by exact weight_pos.
  assert (Hseed : forall i p,
             broadcast_entry (probability Fixture.seed) i = Some p -> (0 <= p)%Q).
  { intros i p E. inversion E. discriminate. }
  assert (H : expand Fixture.model tt tt 2 Fixture.seed
              = inr ([Fixture.first_child; Fixture.second_child], ([tt], [tt])))
    by (vm_compute; reflexivity).
  split; [exact Hpos|]. split; [exact Hseed|]. split; [exact H|].
  apply (child_probability_le_parent Fixture.model tt tt 2 Fixture.seed
           Hpos Hseed H Fixture.first_child 0).
  - simpl; auto.
  - reflexivity.
Defined.

(** * Further properties of the modelled code *)

(** ** [remove_special_tokens] *)

Lemma is_special_In (special_tokens : list Z) (tok : Z) :
  is_special special_tokens tok = true <-> In tok special_tokens.
Proof.
  unfold is_special. rewrite existsb_exists. split.
  - intros (x & Hx & E). apply Z.eqb_eq in E. now subst.
  - intros H. exists tok. split; [exact H | apply Z.eqb_refl].
Qed.

Lemma is_special_app (a b : list Z) (tok : Z) :
  is_special (a ++ b) tok = is_special a tok || is_special b tok.
Proof. unfold is_special. apply existsb_app. Qed.

(** Removing the special tokens and then the formatting tokens, as
    [evaluate] does for the symbols view, is one removal of the union of
    the two sets, and the two removals can be done in either order. *)
Theorem remove_all_composes (tokens special_tokens non_symbols_encoded : list Z) :
  remove_special_tokens
    (remove_special_tokens tokens special_tokens false) non_symbols_encoded false
  = remove_special_tokens tokens (special_tokens ++ non_symbols_encoded) false
  /\
  remove_special_tokens
    (remove_special_tokens tokens special_tokens false) non_symbols_encoded false
  = remove_special_tokens
      (remove_special_tokens tokens non_symbols_encoded false) special_tokens false.
Proof.
  unfold remove_special_tokens.
  induction tokens as [|tok rest [IH1 IH2]]; [split; reflexivity|].
  simpl. rewrite is_special_app.
  destruct (is_special special_tokens tok) eqn:Es;
    destruct (is_special non_symbols_encoded tok) eqn:En; simpl;
    rewrite ?Es, ?En; simpl; split; congruence.
Qed.

(** Without [strip_only] a sequence comes back unchanged exactly when it
    holds no special token. *)
Theorem remove_all_unchanged_iff (tokens special_tokens : list Z) :
  remove_special_tokens tokens special_tokens false = tokens <->
  (forall tok, In tok tokens -> ~ In tok special_tokens).
Proof.
  unfold remove_special_tokens. split.
  - intros E tok Hin Hsp. rewrite <- E in Hin.
    apply filter_In in Hin as [_ Hn].
    apply is_special_In in Hsp. rewrite Hsp in Hn. discriminate.
  - intros Hfree. induction tokens as [|tok rest IH]; [reflexivity|].
    simpl. destruct (is_special special_tokens tok) eqn:E.
    + apply is_special_In in E. exfalso. apply (Hfree tok); simpl; auto.
    + simpl. f_equal. apply IH. intros t Ht. apply Hfree. now right.
Qed.

Lemma count_run_all (special_tokens tokens : list Z) :
  Forall (fun tok => is_special special_tokens tok = true) tokens ->
  count_run special_tokens tokens = List.length tokens.
Proof.
  induction 1 as [|tok rest Htok _ IH]; simpl; [reflexivity|].
  now rewrite Htok, IH.
Qed.

Lemma count_run_prefix (special_tokens run rest : list Z) (tok : Z) :
  Forall (fun t => is_special special_tokens t = true) run ->
  is_special special_tokens tok = false ->
  count_run special_tokens (run ++ tok :: rest) = List.length run.
Proof.
  induction 1 as [|t run Ht _ IH]; intros Htok; simpl.
  - now rewrite Htok.
  - now rewrite Ht, IH.
Qed.

Lemma skipn_length_app (A : Type) (a b : list A) :
  skipn (List.length a) (a ++ b) = b.
Proof. induction a as [|x a IH]; simpl; auto. Qed.

Lemma firstn_length_app (A : Type) (a b : list A) :
  firstn (List.length a) (a ++ b) = a.
Proof. induction a as [|x a IH]; simpl; [reflexivity | now rewrite IH]. Qed.

(** With [strip_only], a sequence that ends in at least one special token
    loses exactly its leading and its trailing run of special tokens. *)
Theorem strip_only_trims_both_ends (special_tokens left middle right : list Z) :
  Forall (fun t => is_special special_tokens t = true) left ->
  Forall (fun t => is_special special_tokens t = true) right ->
  right <> [] ->
  middle <> [] ->
  is_special special_tokens (hd 0%Z middle) = false ->
  is_special special_tokens (last middle 0%Z) = false ->
  remove_special_tokens (left ++ middle ++ right) special_tokens true = middle.
Proof.
  intros Hleft Hright Hne Hmid Hfirst Hlast.
  unfold remove_special_tokens.
  assert (Hl : count_run special_tokens (left ++ middle ++ right)
               = List.length left).
  { destruct middle as [|first inner]; [congruence|].
    simpl in Hfirst. simpl. now apply count_run_prefix. }
  assert (Hr : count_run special_tokens (rev (left ++ middle ++ right))
               = List.length right).
  { rewrite (app_removelast_last 0%Z Hmid) at 1.
    rewrite !rev_app_distr. simpl. rewrite <- app_assoc. simpl.
    rewrite count_run_prefix; [apply length_rev| |exact Hlast].
    apply Forall_rev. exact Hright. }
  rewrite Hl, Hr. unfold slice, slice_bound.
  assert (Hlen : 0 < List.length right) by (destruct right; simpl; [congruence|lia]).
  rewrite !length_app.
  destruct (Z.ltb_spec (Z.of_nat (List.length left)) 0); [lia|].
  destruct (Z.ltb_spec (- Z.of_nat (List.length right)) 0); [|lia].
  replace (Z.to_nat (Z.min _ _)) with (List.length left) by lia.
  replace (Z.to_nat _) with (List.length middle) by lia.
  rewrite skipn_length_app. apply firstn_length_app.
Qed.

Lemma strip_only_trims_both_ends_witness :
  remove_special_tokens ([0; 1] ++ [5; 6; 7] ++ [1; 1])%Z [0; 1]%Z true
  = [5; 6; 7]%Z.
Proof.
  apply (@strip_only_trims_both_ends [0; 1]%Z [0; 1]%Z [5; 6; 7]%Z [1; 1]%Z).
  - repeat constructor.
  - repeat constructor.
  - discriminate.
  - discriminate.
  - reflexivity.
  - reflexivity.
Defined.

(** With [strip_only], every sequence whose last token is not special
    comes back empty, whatever stands in front of that token. *)
Theorem strip_only_empty_without_trailing_special
  (special_tokens front : list Z) (last_ : Z) :
  is_special special_tokens last_ = false ->
  remove_special_tokens (front ++ [last_]) special_tokens true = [].
Proof.
  intros Hlast. unfold remove_special_tokens.
  rewrite rev_app_distr. simpl. rewrite Hlast.
  apply slice_stop_zero.
Qed.

Lemma strip_only_empty_without_trailing_special_witness :
  remove_special_tokens ([0; 5; 1; 6] ++ [7])%Z [0; 1]%Z true = [].
Proof.
  apply (@strip_only_empty_without_trailing_special [0; 1]%Z [0; 5; 1; 6]%Z 7%Z).
  reflexivity.
Defined.

(** With [strip_only], a sequence made of special tokens only comes back
    empty. *)
Theorem strip_only_all_special (special_tokens tokens : list Z) :
  Forall (fun t => is_special special_tokens t = true) tokens ->
  remove_special_tokens tokens special_tokens true = [].
Proof.
  intros Hall. unfold remove_special_tokens.
  rewrite !count_run_all; [|apply Forall_rev; exact Hall|exact Hall].
  rewrite length_rev. unfold slice, slice_bound.
  destruct (Z.ltb_spec (Z.of_nat (List.length tokens)) 0); [lia|].
  destruct (Z.ltb_spec (- Z.of_nat (List.length tokens)) 0).
  - replace (Z.to_nat _) with 0 by lia. reflexivity.
  - replace (Z.to_nat _) with 0 by lia. reflexivity.
Qed.

Lemma strip_only_all_special_witness :
  remove_special_tokens [0; 1; 1; 0]%Z [0; 1]%Z true = [].
Proof.
  apply (@strip_only_all_special [0; 1]%Z [0; 1; 1; 0]%Z).
  repeat constructor.
Defined.

(** ** [calc_distances] and [create_statistics] *)

Lemma levenshtein_zero (a b : list Z) :
  Stats.levenshtein a b = 0 <-> a = b.
Proof.
  revert b. induction a as [|x a IH]; intros b.
  - simpl. destruct b; simpl; split; intros H; try reflexivity; discriminate.
  - destruct b as [|y b].
    + simpl. split; discriminate.
    + change (Stats.levenshtein (x :: a) (y :: b))
        with (Nat.min
                (Nat.min (S (Stats.levenshtein a (y :: b)))
                   (S (Stats.levenshtein (x :: a) b)))
                ((if Z.eqb x y then 0 else 1) + Stats.levenshtein a b)).
      split.
      * intros H. destruct (Z.eqb_spec x y) as [->|Hne].
        -- f_equal. apply IH. lia.
        -- lia.
      * intros E. inversion E; subst. rewrite Z.eqb_refl.
        rewrite (proj2 (IH b) eq_refl). lia.
Qed.

(** The distance is zero exactly when the two lists have the same
    hashes, element by element. *)
Lemma editdistance_eval_zero (a b : list Z) :
  Stats.editdistance_eval a b = 0 <->
  map Stats.py_hash a = map Stats.py_hash b.
Proof. unfold Stats.editdistance_eval. apply levenshtein_zero. Qed.

(** Two different ids with one hash: the distance does not see the
    difference between -1 and -2. *)
Lemma editdistance_eval_hash_collision :
  Stats.editdistance_eval [0; 3; -1]%Z [0; 3; -2]%Z = 0.
Proof. reflexivity. Qed.

(** An id between 0 and [2 ** 61 - 2] is its own hash. *)
Lemma py_hash_small (n : Z) :
  (0 <= n < 2 ^ 61 - 1)%Z -> Stats.py_hash n = n.
Proof.
  intros Hn. unfold Stats.py_hash.
  rewrite Z.abs_eq, Z.mod_small by lia.
  destruct (Z.eq_dec n 0) as [->|Hne]; [reflexivity|].
  rewrite Z.sgn_pos by lia. rewrite Z.mul_1_l.
  destruct (Z.eqb_spec n (-1)); [lia | reflexivity].
Qed.

Lemma map_py_hash_small (tokens : list Z) :
  (forall tok, In tok tokens -> (0 <= tok < 2 ^ 61 - 1)%Z) ->
  map Stats.py_hash tokens = tokens.
Proof.
  intros H. rewrite <- (map_id tokens) at 2.
  apply map_ext_in. intros tok Htok. apply py_hash_small. now apply H.
Qed.

Lemma fold_add_zero (ns : list nat) (a : nat) :
  fold_left Nat.add ns a = 0 <-> a = 0 /\ Forall (fun n => n = 0) ns.
Proof.
  revert a. induction ns as [|n ns IH]; intros a; simpl.
  - split; [intros ->; auto | tauto].
  - rewrite IH. split.
    + intros [H1 H2]. split; [lia|]. constructor; [lia | exact H2].
    + intros [-> H]. apply Forall_cons_iff in H as [-> H]. auto.
Qed.

Lemma filter_length_all (A : Type) (f : A -> bool) (xs : list A) :
  List.length (filter f xs) = List.length xs <-> forall x, In x xs -> f x = true.
Proof.
  induction xs as [|x xs IH]; simpl.
  - split; [intros _ y [] | reflexivity].
  - pose proof (filter_length_le f xs) as Hle.
    destruct (f x) eqn:E; simpl.
    + split.
      * intros H y [<-|Hy]; [exact E|]. apply IH; [lia | exact Hy].
      * intros H. f_equal. apply IH. auto.
    + split; [lia|]. intros H. specialize (H x (or_introl eq_refl)). congruence.
Qed.

Lemma sum_distances_zero (actual expected : list (list Z)) :
  Stats.sum_nat (Stats.calc_distances actual expected) = 0 <->
  forall act exp, In (act, exp) (combine actual expected) ->
    map Stats.py_hash act = map Stats.py_hash exp.
Proof.
  unfold Stats.sum_nat, Stats.calc_distances. rewrite fold_add_zero.
  rewrite Forall_map, Forall_forall. split.
  - intros [_ H] act exp Hin. apply editdistance_eval_zero.
    exact (H (act, exp) Hin).
  - intros H. split; [reflexivity|]. intros [act exp] Hin. simpl.
    apply editdistance_eval_zero. now apply H.
Qed.

Lemma count_equal_all (actual expected : list (list Z)) :
  Stats.count_equal actual expected
  = Nat.min (List.length actual) (List.length expected) <->
  forall act exp, In (act, exp) (combine actual expected) -> act = exp.
Proof.
  unfold Stats.count_equal. rewrite <- length_combine, filter_length_all.
  split.
  - intros H act exp Hin. apply torch_equal_spec. exact (H (act, exp) Hin).
  - intros H [act exp] Hin. apply torch_equal_spec. now apply H.
Qed.

Lemma combine_diag (A : Type) (xs : list A) (a b : A) :
  In (a, b) (combine xs xs) -> a = b.
Proof.
  induction xs as [|x xs IH]; simpl; [intros []|].
  intros [E|Hin]; [congruence | auto].
Qed.

(** [editdistance.eval] compares hashes: the summed distance of a view is
    zero exactly when every predicted sequence has, element by element,
    the hashes of the expected sequence it is paired with, while a pair
    counts as correct only when the two sequences are equal.  For ids
    between 0 and [2 ** 61 - 2], as the indices of a vocabulary are, the
    two coincide: the summed distance is zero exactly when every compared
    pair is equal.  Sequences beyond the shorter of the two lists are not
    compared at all. *)
Theorem zero_distance_iff_equal_hashes (actual expected : list (list Z)) :
  (Stats.sum_nat (Stats.calc_distances actual expected) = 0 <->
   forall act exp, In (act, exp) (combine actual expected) ->
     map Stats.py_hash act = map Stats.py_hash exp) /\
  (Stats.count_equal actual expected
   = Nat.min (List.length actual) (List.length expected) <->
   forall act exp, In (act, exp) (combine actual expected) -> act = exp) /\
  ((forall seq tok, In seq (actual ++ expected) -> In tok seq ->
      (0 <= tok < 2 ^ 61 - 1)%Z) ->
   (Stats.sum_nat (Stats.calc_distances actual expected) = 0 <->
    forall act exp, In (act, exp) (combine actual expected) -> act = exp)).
Proof.
  split; [apply sum_distances_zero|]. split; [apply count_equal_all|].
  intros Hids. rewrite sum_distances_zero. split.
  - intros H act exp Hin. specialize (H act exp Hin).
    rewrite !map_py_hash_small in H; [exact H| |].
    + intros tok Htok. apply (Hids exp); [|exact Htok].
      apply in_app_iff. right. eapply in_combine_r; eassumption.
    + intros tok Htok. apply (Hids act); [|exact Htok].
      apply in_app_iff. left. eapply in_combine_l; eassumption.
  - intros H act exp Hin. now rewrite (H act exp Hin).
Qed.

(** [create_statistics] raises nothing exactly when the three expected
    token counts are not zero and the batch holds at least one sequence;
    the only exception it ever raises is [ZeroDivisionError]. *)
Theorem create_statistics_succeeds_iff (hypothesis : Stats.Scored) :
  (snd (Stats.create_statistics hypothesis) = None <->
   (Stats.full (Stats.num_tokens hypothesis) <> 0
    /\ Stats.removed (Stats.num_tokens hypothesis) <> 0
    /\ Stats.symbols (Stats.num_tokens hypothesis) <> 0)%Z
   /\ Stats.full (Stats.sequence hypothesis) <> []) /\
  (snd (Stats.create_statistics hypothesis) = None \/
   snd (Stats.create_statistics hypothesis) = Some ZeroDivisionError).
Proof.
  unfold Stats.create_statistics, Stats.div_views, Stats.true_div.
  destruct (Z.eqb_spec (Stats.full (Stats.num_tokens hypothesis)) 0) as [Ef|Ef];
    simpl; [split; [split; [discriminate | tauto] | auto]|].
  destruct (Z.eqb_spec (Stats.removed (Stats.num_tokens hypothesis)) 0) as [Er|Er];
    simpl; [split; [split; [discriminate | tauto] | auto]|].
  destruct (Z.eqb_spec (Stats.symbols (Stats.num_tokens hypothesis)) 0) as [Es|Es];
    simpl; [split; [split; [discriminate | tauto] | auto]|].
  destruct (Stats.full (Stats.sequence hypothesis)) as [|s rest]; simpl.
  - split; [split; [discriminate | tauto] | auto].
  - split; [|auto]. split; [intros _|reflexivity].
    repeat split; auto; discriminate.
Qed.

(** On an empty batch with non-zero token counts [create_statistics]
    raises [ZeroDivisionError] only at the match percentage.  By then the
    dict holds the distances (0 for the full view, the summed distances of
    the two other views), the error rates (each distance over its token
    count, so 0 for the full view) and the counts with a total of 0; the
    percentages are not stored. *)
Theorem create_statistics_empty_batch (hypothesis : Stats.Scored) :
  Stats.full (Stats.sequence hypothesis) = [] ->
  (Stats.full (Stats.num_tokens hypothesis) <> 0
   /\ Stats.removed (Stats.num_tokens hypothesis) <> 0
   /\ Stats.symbols (Stats.num_tokens hypothesis) <> 0)%Z ->
  snd (Stats.create_statistics hypothesis) = Some ZeroDivisionError /\
  Stats.distance (fst (Stats.create_statistics hypothesis))
  = Some (Stats.mkViews 0
            (Stats.sum_nat
               (Stats.calc_distances (Stats.removed (Stats.sequence hypothesis))
                  (Stats.removed (Stats.expected hypothesis))))
            (Stats.sum_nat
               (Stats.calc_distances (Stats.symbols (Stats.sequence hypothesis))
                  (Stats.symbols (Stats.expected hypothesis))))) /\
  Stats.error (fst (Stats.create_statistics hypothesis))
  = Some (Stats.mkViews
            (inject_Z 0 / inject_Z (Stats.full (Stats.num_tokens hypothesis)))
            (inject_Z
               (Z.of_nat
                  (Stats.sum_nat
                     (Stats.calc_distances
                        (Stats.removed (Stats.sequence hypothesis))
                        (Stats.removed (Stats.expected hypothesis)))))
             / inject_Z (Stats.removed (Stats.num_tokens hypothesis)))
            (inject_Z
               (Z.of_nat
                  (Stats.sum_nat
                     (Stats.calc_distances
                        (Stats.symbols (Stats.sequence hypothesis))
                        (Stats.symbols (Stats.expected hypothesis)))))
             / inject_Z (Stats.symbols (Stats.num_tokens hypothesis))))%Q /\
  (inject_Z 0 / inject_Z (Stats.full (Stats.num_tokens hypothesis)) == 0)%Q /\
  Stats.correct_stats (fst (Stats.create_statistics hypothesis))
  = Some (Stats.mkCorrect
            (Stats.mkViews 0
               (Stats.count_equal (Stats.removed (Stats.sequence hypothesis))
                  (Stats.removed (Stats.expected hypothesis)))
               (Stats.count_equal (Stats.symbols (Stats.sequence hypothesis))
                  (Stats.symbols (Stats.expected hypothesis))))
            0 None).
Proof.
  intros Hempty (Hf & Hr & Hs).
  unfold Stats.create_statistics, Stats.div_views, Stats.true_div.
  rewrite Hempty.
  destruct (Z.eqb_spec (Stats.full (Stats.num_tokens hypothesis)) 0); [tauto|].
  destruct (Z.eqb_spec (Stats.removed (Stats.num_tokens hypothesis)) 0); [tauto|].
  destruct (Z.eqb_spec (Stats.symbols (Stats.num_tokens hypothesis)) 0); [tauto|].
  simpl. repeat split; reflexivity.
Qed.

Lemma create_statistics_empty_batch_witness :
  snd (Stats.create_statistics
         (Stats.mkScored (Stats.mkViews [] [] []) (Stats.mkViews [] [] [])
            (Stats.mkViews 3 2 1)%Z None None None))
  = Some ZeroDivisionError /\
  Stats.distance
    (fst (Stats.create_statistics
            (Stats.mkScored (Stats.mkViews [] [] []) (Stats.mkViews [] [] [])
               (Stats.mkViews 3 2 1)%Z None None None)))
  = Some (Stats.mkViews 0 0 0).
Proof.
  destruct (@create_statistics_empty_batch
              (Stats.mkScored (Stats.mkViews [] [] []) (Stats.mkViews [] [] [])
                 (Stats.mkViews 3 2 1)%Z None None None))
    as (H1 & H2 & _).
  - reflexivity.
  - repeat split; discriminate.
  - split; [exact H1 | exact H2].
Defined.

(** When every predicted view equals the expected one and nothing is
    raised, the three error rates are 0, every sequence counts as correct
    and the match percentage of the full view is 1. *)
Theorem create_statistics_perfect (hypothesis : Stats.Scored) :
  Stats.sequence hypothesis = Stats.expected hypothesis ->
  snd (Stats.create_statistics hypothesis) = None ->
  exists e c p,
    Stats.error (fst (Stats.create_statistics hypothesis)) = Some e /\
    (Stats.full e == 0 /\ Stats.removed e == 0 /\ Stats.symbols e == 0)%Q /\
    Stats.correct_stats (fst (Stats.create_statistics hypothesis))
    = Some (Stats.mkCorrect c (List.length (Stats.full (Stats.sequence hypothesis)))
              (Some p)) /\
    Stats.full c = List.length (Stats.full (Stats.sequence hypothesis)) /\
    (Stats.full p == 1)%Q.
Proof.
  intros Heq Hok.
  assert (Hd : forall xs : list (list Z),
             Stats.sum_nat (Stats.calc_distances xs xs) = 0).
  { intros xs. apply sum_distances_zero. intros act exp Hin.
    now rewrite (combine_diag _ _ _ Hin). }
  assert (Hc : forall xs : list (list Z), Stats.count_equal xs xs = List.length xs).
  { intros xs.
    transitivity (Nat.min (List.length xs) (List.length xs));
      [|apply Nat.min_id].
    apply count_equal_all. apply combine_diag. }
  revert Hok. unfold Stats.create_statistics, Stats.div_views, Stats.true_div.
  rewrite <- Heq, !Hd, !Hc.
  destruct (Z.eqb_spec (Stats.full (Stats.num_tokens hypothesis)) 0);
    [simpl; discriminate|].
  destruct (Z.eqb_spec (Stats.removed (Stats.num_tokens hypothesis)) 0);
    [simpl; discriminate|].
  destruct (Z.eqb_spec (Stats.symbols (Stats.num_tokens hypothesis)) 0);
    [simpl; discriminate|].
  simpl.
  destruct (Z.eqb_spec
              (Z.of_nat (List.length (Stats.full (Stats.sequence hypothesis)))) 0)
    as [E0|E0]; [simpl; discriminate|].
  simpl. intros _. do 3 eexists. split; [reflexivity|]. simpl.
  split; [repeat split; unfold Qdiv; apply Qmult_0_l|].
  split; [reflexivity|]. split; [reflexivity|].
  apply Qmult_inv_r. intros Hq. apply E0.
  unfold Qeq in Hq. simpl in Hq. lia.
Qed.

Lemma create_statistics_perfect_witness :
  exists e,
    Stats.error
      (fst (Stats.create_statistics
              (Stats.mkScored
                 (Stats.mkViews [[0; 3; 2]%Z] [[3; 2]%Z] [[3]%Z])
                 (Stats.mkViews [[0; 3; 2]%Z] [[3; 2]%Z] [[3]%Z])
                 (Stats.mkViews 3 2 1)%Z None None None))) = Some e /\
    (Stats.full e == 0)%Q.
Proof.
  destruct (@create_statistics_perfect
              (Stats.mkScored
                 (Stats.mkViews [[0; 3; 2]%Z] [[3; 2]%Z] [[3]%Z])
                 (Stats.mkViews [[0; 3; 2]%Z] [[3; 2]%Z] [[3]%Z])
                 (Stats.mkViews 3 2 1)%Z None None None)
              eq_refl eq_refl)
    as (e & c & p & He & (Hf & _) & _).
  exists e. split; [exact He | exact Hf].
Defined.

(** ** [to_percent] and [create_markdown_tables] *)

(** [round] stays between two integers that bound its argument. *)
Lemma py_round_range (x : Q) (lo hi : Z) :
  (inject_Z lo <= x)%Q -> (x <= inject_Z hi)%Q ->
  (lo <= Markdown.py_round x <= hi)%Z.
Proof.
  intros Hlo Hhi. unfold Markdown.py_round.
  pose proof (Qfloor_le x) as Hfl.
  assert (Hf_lo : (lo <= Qfloor x)%Z).
  { rewrite <- (Qfloor_Z lo). now apply Qfloor_resp_le. }
  assert (Hf_hi : (Qfloor x <= hi)%Z).
  { rewrite <- (Qfloor_Z hi). now apply Qfloor_resp_le. }
  assert (Hup : (1 # 2 <= x - inject_Z (Qfloor x))%Q -> (Qfloor x + 1 <= hi)%Z).
  { intros Hhalf.
    assert (Hlt : (inject_Z (Qfloor x) < inject_Z hi)%Q) by lra.
    rewrite <- Zlt_Qlt in Hlt. lia. }
  destruct (Qcompare (x - inject_Z (Qfloor x)) (1 # 2)) eqn:E.
  - apply Qeq_alt in E. destruct (Z.even (Qfloor x)); [lia|].
    split; [lia|]. apply Hup. rewrite E. apply Qle_refl.
  - lia.
  - apply Qgt_alt in E. split; [lia|]. apply Hup. lra.
Qed.

Lemma format_fixed_width_check :
  forallb
    (fun n => Nat.leb (String.length (Markdown.format_fixed (Z.of_nat n) 2)) 6)
    (seq 0 (Z.to_nat 10001)) = true.
Proof. vm_compute. reflexivity. Qed.

Lemma to_percent_fraction_length (decimal : Q) :
  (0 <= decimal)%Q -> (decimal <= 1)%Q ->
  String.length (Markdown.to_percent decimal 2) <= 7.
Proof.
  intros H0 H1. unfold Markdown.to_percent.
  set (r := Markdown.py_round _).
  assert (Hr : (0 <= r <= 10000)%Z).
  { subst r. apply py_round_range.
    - change (inject_Z (10 ^ Z.of_nat 2)) with 100%Q.
      change (inject_Z 0) with 0%Q. nra.
    - change (inject_Z (10 ^ Z.of_nat 2)) with 100%Q.
      change (inject_Z 10000) with 10000%Q. nra. }
  pose proof format_fixed_width_check as Hall.
  rewrite forallb_forall in Hall.
  specialize (Hall (Z.to_nat r)).
  rewrite Z2Nat.id in Hall by lia.
  assert (Hin : In (Z.to_nat r) (seq 0 (Z.to_nat 10001))) by (apply in_seq; lia).
  apply Hall, Nat.leb_le in Hin.
  assert (Happ : forall a b : string,
             String.length (a ++ b) = String.length a + String.length b).
  { intros a b. induction a as [|c a IH]; simpl; [reflexivity | now rewrite IH]. }
  rewrite Happ. simpl. lia.
Qed.


(** A fraction between 0 and 1, such as a match percentage, prints in at
    most 7 characters, from "0.00%" to "100.00%". *)
Theorem to_percent_fraction_width (decimal : Q) :
  (0 <= decimal)%Q -> (decimal <= 1)%Q ->
  String.length (Markdown.to_percent decimal 2) <= 7.
Proof. apply to_percent_fraction_length. Qed.

Lemma to_percent_fraction_width_witness :
  String.length (Markdown.to_percent (2 # 3) 2) <= 7.
Proof.
  apply (@to_percent_fraction_width (2 # 3)); unfold Qle; simpl; lia.
Defined.

(** [create_markdown_tables] raises [ValueError] on the empty results
    mapping, and on no other. *)
Theorem create_markdown_tables_fails_iff_empty
  (results : list (string * Markdown.Result)) :
  Markdown.create_markdown_tables results = inl ValueError <-> results = [].
Proof.
  split.
  - destruct results as [|nr results]; [reflexivity | discriminate].
  - intros ->. reflexivity.
Qed.



(** ** [unbatch_hypotheses] and [batch_single_hypotheses] *)

Section RegroupExact.

Variables Hidden Attn : Type.

Lemma entry_of_inr (h : Batched Hidden Attn) (i : nat) s :
  single_at h i = inr s -> entry_of h i = [s].
Proof. unfold entry_of. now intros ->. Qed.

(** A hypothesis has no entry beyond the length of its probability. *)
Lemma entry_of_beyond (h : Batched Hidden Attn) (i n : nat) :
  prob_len (probability h) = inr n -> n <= i -> entry_of h i = [].
Proof.
  intros Hn Hi. unfold entry_of.
  destruct (single_at h i) as [e|s] eqn:E; [reflexivity|].
  apply single_at_inr in E as (_ & _ & _ & _ & Hp).
  destruct (probability h) as [p|ps]; simpl in *; [discriminate|].
  inversion Hn; subst n. apply index_inr in Hp.
  assert (i < List.length ps) by (apply nth_error_Some; congruence). lia.
Qed.

Lemma file_entries_exact (h : Batched Hidden Attn) (idx : list nat) acc acc' :
  NoDup idx ->
  foldM (file_entry h) acc idx = inr acc' ->
  List.length acc' = List.length acc /\
  (forall i, In i idx -> i < List.length acc /\ exists s, single_at h i = inr s) /\
  forall i row, nth_error acc i = Some row ->
    (In i idx -> nth_error acc' i = Some (row ++ entry_of h i)) /\
    (~ In i idx -> nth_error acc' i = Some row).
Proof.
  revert acc. induction idx as [|i0 idx IH]; intros acc Hnd H; simpl in H.
  - inversion H; subst. split; [reflexivity|]. split; [intros i []|].
    intros i row Hrow. split; [intros [] | auto].
  - apply NoDup_cons_iff in Hnd as [Hnotin Hnd].
    apply bind_inr in H as (acc1 & Hstep & H).
    unfold file_entry in Hstep. apply bind_inr in Hstep as (s & Hs & Happ).
    apply append_at_spec in Happ as (L1 & row0 & Hrow0 & Hnth).
    destruct (IH acc1 Hnd H) as (L & Hidx & Hrows).
    split; [congruence|]. split.
    + intros i [<-|Hi].
      * split; [apply nth_error_Some; congruence | eauto].
      * destruct (Hidx i Hi) as [Hlt Hex]. split; [lia | exact Hex].
    + intros i row Hrow.
      destruct (Nat.eq_dec i i0) as [->|Hne].
      * assert (row0 = row) by congruence. subst row0.
        specialize (Hnth i0). rewrite Nat.eqb_refl in Hnth.
        destruct (Hrows i0 _ Hnth) as [_ Hout]. split.
        -- intros _. erewrite entry_of_inr; [|exact Hs]. now apply Hout.
        -- intros Hn. exfalso. apply Hn. now left.
      * specialize (Hnth i).
        rewrite (proj2 (Nat.eqb_neq i i0) Hne), Hrow in Hnth.
        destruct (Hrows i _ Hnth) as [Hin Hout]. split.
        -- intros [E|Hi]; [congruence | auto].
        -- intros Hn. apply Hout. intros Hi. apply Hn. now right.
Qed.

Lemma unbatch_one_exact (h : Batched Hidden Attn) acc acc' :
  unbatch_one acc h = inr acc' ->
  List.length acc' = List.length acc /\
  (exists n, prob_len (probability h) = inr n /\ n <= List.length acc /\
             forall i, i < n -> exists s, single_at h i = inr s) /\
  forall i row, nth_error acc i = Some row ->
    nth_error acc' i = Some (row ++ entry_of h i).
Proof.
  unfold unbatch_one. intros H. apply bind_inr in H as (n & Hn & H).
  apply file_entries_exact in H as (L & Hidx & Hrows); [|apply seq_NoDup].
  split; [exact L|]. split.
  - exists n. split; [exact Hn|]. split.
    + destruct n as [|n]; [lia|].
      destruct (Hidx n) as [Hlt _]; [apply in_seq; lia | lia].
    + intros i Hi. apply Hidx. apply in_seq. lia.
  - intros i row Hrow. destruct (Hrows i row Hrow) as [Hin Hout].
    destruct (Nat.lt_ge_cases i n) as [Hlt|Hge].
    + apply Hin. apply in_seq. lia.
    + erewrite entry_of_beyond; [|exact Hn|exact Hge]. rewrite app_nil_r.
      apply Hout. intros Hi. apply in_seq in Hi. lia.
Qed.

Lemma batches_exact (hs : list (Batched Hidden Attn)) acc acc' :
  foldM (@unbatch_one _ _) acc hs = inr acc' ->
  List.length acc' = List.length acc /\
  (forall h, In h hs ->
     exists n, prob_len (probability h) = inr n /\ n <= List.length acc /\
               forall i, i < n -> exists s, single_at h i = inr s) /\
  forall i row, nth_error acc i = Some row ->
    nth_error acc' i = Some (row ++ column hs i).
Proof.
  revert acc. induction hs as [|h hs IH]; intros acc H; simpl in H.
  - inversion H; subst. split; [reflexivity|]. split; [intros h []|].
    intros i row Hrow. simpl. now rewrite app_nil_r.
  - apply bind_inr in H as (acc1 & Hone & H).
    apply unbatch_one_exact in Hone as (L1 & Hh & Hrows1).
    destruct (IH acc1 H) as (L & Hall & Hrows).
    split; [congruence|]. split.
    + intros h' [<-|Hh']; [exact Hh|].
      destruct (Hall h' Hh') as (n & Hn & Hle & Hs).
      exists n. split; [exact Hn|]. split; [lia | exact Hs].
    + intros i row Hrow. simpl. rewrite app_assoc.
      apply Hrows. now apply Hrows1.
Qed.

(** What [unbatch_hypotheses] returns when it returns: one list per entry
    of the first hypothesis, list [i] holding the entries [i] of all the
    hypotheses in their order; no hypothesis has more entries than the
    first, and every entry has all its fields. *)
Lemma unbatch_hypotheses_exact (hs : list (Batched Hidden Attn)) by_seq :
  unbatch_hypotheses hs = inr by_seq ->
  (forall i row, nth_error by_seq i = Some row -> row = column hs i) /\
  (forall h0 rest, hs = h0 :: rest ->
     prob_len (probability h0) = inr (List.length by_seq)) /\
  (forall h, In h hs ->
     exists n, prob_len (probability h) = inr n /\ n <= List.length by_seq /\
               forall i, i < n -> exists s, single_at h i = inr s).
Proof.
  unfold unbatch_hypotheses. destruct hs as [|h0 rest].
  - intros H. inversion H; subst. split; [intros [|i] row; discriminate|].
    split; [discriminate | intros h []].
  - intros H. apply bind_inr in H as (n0 & Hn0 & H).
    apply batches_exact in H as (L & Hall & Hrows).
    rewrite repeat_length in L. split; [|split].
    + intros i row Hrow.
      assert (Hi : i < n0) by (rewrite <- L; apply nth_error_Some; congruence).
      specialize (Hrows i [] (nth_error_repeat _ Hi)).
      rewrite app_nil_l in Hrows. congruence.
    + intros h0' rest' E. inversion E; subst. congruence.
    + intros h Hh. destruct (Hall h Hh) as (n & Hn & Hle & Hs).
      rewrite repeat_length in Hle. exists n. split; [exact Hn|].
      split; [lia | exact Hs].
Qed.

(** Grouping by input keeps every hypothesis, in order: list [i] of the
    result is the list of the entries [i] of the batched hypotheses, and
    the result has one list per entry of the first hypothesis.  A later
    hypothesis with more entries than the first makes the call fail. *)
Theorem unbatch_hypotheses_groups_in_order
  (hs : list (Batched Hidden Attn)) by_seq :
  unbatch_hypotheses hs = inr by_seq ->
  (forall i row, nth_error by_seq i = Some row -> row = column hs i) /\
  (forall h0 rest, hs = h0 :: rest ->
     prob_len (probability h0) = inr (List.length by_seq)) /\
  (forall h n, In h hs -> prob_len (probability h) = inr n ->
     n <= List.length by_seq).
Proof.
  intros H. apply unbatch_hypotheses_exact in H as (Hrows & Hlen & Hall).
  split; [exact Hrows|]. split; [exact Hlen|].
  intros h n Hh Hn. destruct (Hall h Hh) as (n' & Hn' & Hle & _).
  assert (n' = n) by congruence. subst n'. exact Hle.
Qed.

End RegroupExact.

Section RegroupRoundTrip.

Variables Hidden Attn : Type.

Lemma single_at_total (n : nat) (h : Batched Hidden Attn) (i : nat) :
  rectangular n h -> i < n -> exists s, single_at h i = inr s.
Proof.
  intros (Hf & Hh & Hl & Hg & ps & Hp & Hps) Hi. unfold single_at, index.
  destruct (nth_error (seq_full h) i) as [f|] eqn:Ef;
    [|apply nth_error_None in Ef; lia].
  destruct (nth_error (hidden h) i) as [hd|] eqn:Eh;
    [|apply nth_error_None in Eh; lia].
  destruct (nth_error (attn_low h) i) as [lo|] eqn:El;
    [|apply nth_error_None in El; lia].
  destruct (nth_error (attn_high h) i) as [hi|] eqn:Eg;
    [|apply nth_error_None in Eg; lia].
  rewrite Hp. simpl. unfold index.
  destruct (nth_error ps i) as [p|] eqn:Ep;
    [|apply nth_error_None in Ep; lia].
  simpl. eexists. reflexivity.
Qed.

Lemma file_entries_total (n : nat) (h : Batched Hidden Attn) (idx : list nat) acc :
  rectangular n h -> List.length acc = n -> (forall i, In i idx -> i < n) ->
  exists acc', foldM (file_entry h) acc idx = inr acc'.
Proof.
  intros Hrect. revert acc. induction idx as [|i idx IH]; intros acc Hlen Hidx.
  - eexists. reflexivity.
  - simpl. unfold file_entry at 1.
    destruct (single_at_total Hrect (Hidx i (or_introl eq_refl))) as (s & ->).
    simpl. unfold append_at, index.
    destruct (nth_error acc i) as [row|] eqn:E.
    + simpl. apply IH.
      * rewrite length_replace; [exact Hlen|].
        apply nth_error_Some. congruence.
      * intros k Hk. apply Hidx. now right.
    + apply nth_error_None in E.
      specialize (Hidx i (or_introl eq_refl)). lia.
Qed.

Lemma batches_total (n : nat) (hs : list (Batched Hidden Attn)) acc :
  Forall (rectangular n) hs -> List.length acc = n ->
  exists acc', foldM (@unbatch_one _ _) acc hs = inr acc'.
Proof.
  intros Hall. revert acc. induction Hall as [|h hs Hh _ IH]; intros acc Hlen.
  - eexists. reflexivity.
  - simpl. unfold unbatch_one at 1.
    pose proof Hh as (_ & _ & _ & _ & ps & Hp & Hps). rewrite Hp. simpl.
    destruct (@file_entries_total n h (seq 0 (List.length ps)) acc Hh Hlen)
      as (acc1 & Hacc1).
    { intros i Hi. apply in_seq in Hi. lia. }
    rewrite Hacc1. simpl. apply IH.
    apply file_entries_exact in Hacc1 as (L & _); [|apply seq_NoDup].
    congruence.
Qed.

Lemma unbatch_rectangular (n : nat) (hs : list (Batched Hidden Attn)) :
  Forall (rectangular n) hs ->
  exists by_seq,
    unbatch_hypotheses hs = inr by_seq /\
    (hs <> [] -> List.length by_seq = n) /\
    forall i row, nth_error by_seq i = Some row ->
      List.length row = List.length hs.
Proof.
  intros Hall. destruct hs as [|h0 rest].
  - exists []. split; [reflexivity|]. split; [congruence|].
    intros [|i] row; discriminate.
  - assert (Hn0 : prob_len (probability h0) = inr n).
    { apply Forall_inv in Hall. destruct Hall as (_ & _ & _ & _ & ps & -> & <-).
      reflexivity. }
    destruct (@batches_total n (h0 :: rest) (repeat [] n) Hall (repeat_length _ _))
      as (by_seq & Hby).
    assert (Hun : unbatch_hypotheses (h0 :: rest) = inr by_seq).
    { unfold unbatch_hypotheses. rewrite Hn0. exact Hby. }
    exists by_seq. split; [exact Hun|].
    apply unbatch_hypotheses_exact in Hun as (Hrows & Hlen & _).
    specialize (Hlen h0 rest eq_refl).
    assert (Elen : List.length by_seq = n) by (unfold ret in *; congruence).
    split; [intros _; exact Elen|].
    intros i row Hrow. rewrite (Hrows i row Hrow).
    assert (Hi : i < n) by (rewrite <- Elen; apply nth_error_Some; congruence).
    clear - Hall Hi. unfold column.
    induction Hall as [|h hs Hh _ IH]; [reflexivity|].
    simpl. rewrite length_app, IH.
    destruct (single_at_total Hh Hi) as (s & Hs).
    erewrite entry_of_inr; [reflexivity | exact Hs].
Qed.

(** The batched hypothesis stacked from one column is rectangular. *)
Lemma stacked_rectangular (col : list (Single Hidden Attn)) :
  rectangular (List.length col)
    (mkBatched (map (@s_full _ _) col) (map (@s_hidden _ _) col)
       (map (@s_attn_low _ _) col) (map (@s_attn_high _ _) col)
       (PTensor (map (@s_probability _ _) col))).
Proof.
  unfold rectangular. simpl. rewrite !length_map. repeat split.
  eexists. split; [reflexivity | apply length_map].
Qed.

(** Entry [(j, i)] of a re-batched beam is the [j]-th hypothesis of
    input [i], and every batched hypothesis has one entry per input. *)
Lemma batched_entries (shs : list (list (Single Hidden Attn))) out :
  batch_single_hypotheses shs = inr out ->
  Forall (rectangular (List.length shs)) out /\
  forall i hs, nth_error shs i = Some hs ->
    List.length out <= List.length hs /\
    forall j b, nth_error out j = Some b ->
      exists s, nth_error hs j = Some s /\ single_at b i = inr s.
Proof.
  intros H. apply batch_single_hypotheses_spec in H as (m & Hmin & Hlen & Hat).
  apply min_of_spec in Hmin as (Hall & _). split.
  - apply Forall_forall. intros b Hb. apply In_nth_error in Hb as (j & Hj).
    apply Hat, batch_at_spec in Hj as (col & HF & ->).
    rewrite (Forall2_length HF). apply stacked_rectangular.
  - intros i hs Hi. split.
    + rewrite Hlen. apply (proj1 (Forall_forall _ _) Hall).
      apply in_map. eapply nth_error_In; eassumption.
    + intros j b Hj. apply Hat, batch_at_spec in Hj as (col & HF & ->).
      destruct (Forall2_nth_error_l HF _ Hi) as (s & Hs & E).
      exists s. split; [exact E|]. now apply single_at_stacked.
Qed.

Lemma column_of_batched (out : list (Batched Hidden Attn)) (i : nat)
  (hs : list (Single Hidden Attn)) :
  (forall j b, nth_error out j = Some b ->
     exists s, nth_error hs j = Some s /\ single_at b i = inr s) ->
  column out i = firstn (List.length out) hs.
Proof.
  revert hs. induction out as [|b out IH]; intros hs H; [reflexivity|].
  destruct (H 0 b eq_refl) as (s & Hs & Hb).
  destruct hs as [|s' hs]; [discriminate|]. simpl in Hs. inversion Hs; subst s'.
  simpl. erewrite entry_of_inr; [|exact Hb]. simpl. f_equal.
  apply IH. intros j b' Hj. exact (H (S j) b' Hj).
Qed.

(** Round trip: grouping a re-batched, non-empty beam by input gives back
    the lists that were re-batched, each cut to the common length. *)
Theorem unbatch_after_batch (shs : list (list (Single Hidden Attn))) out :
  batch_single_hypotheses shs = inr out ->
  out <> [] ->
  unbatch_hypotheses out = inr (map (firstn (List.length out)) shs).
Proof.
  intros H Hne. apply batched_entries in H as (Hrect & Hent).
  destruct (unbatch_rectangular Hrect) as (by_seq & Hun & Hlen & _).
  rewrite Hun. f_equal. specialize (Hlen Hne).
  apply unbatch_hypotheses_exact in Hun as (Hrows & _).
  apply nth_error_ext. intros i. rewrite nth_error_map.
  destruct (nth_error shs i) as [hs|] eqn:Ei; simpl.
  - destruct (nth_error by_seq i) as [row|] eqn:Er.
    + rewrite (Hrows i row Er). f_equal. apply column_of_batched.
      apply (Hent i hs Ei).
    + apply nth_error_None in Er.
      assert (i < List.length shs) by (apply nth_error_Some; congruence). lia.
  - apply nth_error_None. apply nth_error_None in Ei. lia.
Qed.

(** On batched hypotheses that all have one entry per input of a batch
    of [n], [unbatch_hypotheses] raises nothing, and every input gets
    exactly one hypothesis from each of them. *)
Theorem unbatch_hypotheses_rectangular (n : nat) (hs : list (Batched Hidden Attn)) :
  Forall (rectangular n) hs ->
  exists by_seq,
    unbatch_hypotheses hs = inr by_seq /\
    (hs <> [] -> List.length by_seq = n) /\
    forall i row, nth_error by_seq i = Some row ->
      List.length row = List.length hs.
Proof. apply unbatch_rectangular. Qed.

End RegroupRoundTrip.

Lemma unbatch_hypotheses_rectangular_witness :
  exists by_seq,
    unbatch_hypotheses Fixture.candidates = inr by_seq /\
    (Fixture.candidates <> [] -> List.length by_seq = 1) /\
    forall i row, nth_error by_seq i = Some row ->
      List.length row = List.length Fixture.candidates.
Proof.
  apply (@unbatch_hypotheses_rectangular unit unit 1 Fixture.candidates).
  repeat constructor; simpl; try reflexivity;
    eexists; split; reflexivity.
Defined.

Lemma unbatch_after_batch_witness :
  exists out,
    batch_single_hypotheses Fixture.ragged = inr out /\
    unbatch_hypotheses out = inr [[Fixture.dup_high]; [Fixture.other]].
Proof.
  exists [mkBatched [[0; 3]%Z; [0; 2]%Z] [tt; tt] [tt; tt] [tt; tt]
            (PTensor [5 # 10; 2 # 10]%Q)].
  split; [reflexivity|].
  apply (@unbatch_after_batch unit unit Fixture.ragged).
  - reflexivity.
  - discriminate.
Defined.

(** ** [pick_top_k_unique]: size, order, provenance *)

Lemma StronglySorted_app_l (A : Type) (R : A -> A -> Prop) (a b : list A) :
  StronglySorted R (a ++ b) -> StronglySorted R a.
Proof.
  induction a as [|x a IH]; simpl; intros H; [constructor|].
  apply StronglySorted_inv in H as [Hs Hall].
  apply SSorted_cons; [now apply IH|].
  apply Forall_app in Hall. tauto.
Qed.

Lemma StronglySorted_remove (A : Type) (R : A -> A -> Prop) (a b : list A) (x : A) :
  StronglySorted R (a ++ x :: b) -> StronglySorted R (a ++ b).
Proof.
  induction a as [|y a IH]; simpl; intros H.
  - now apply StronglySorted_inv in H.
  - apply StronglySorted_inv in H as [Hs Hall].
    apply SSorted_cons; [now apply IH|].
    apply Forall_app in Hall as [Ha Hb]. apply Forall_inv_tail in Hb.
    apply Forall_app. tauto.
Qed.

Lemma StronglySorted_nth_error (A : Type) (R : A -> A -> Prop) (xs : list A) :
  StronglySorted R xs ->
  forall j k a b, j < k -> nth_error xs j = Some a -> nth_error xs k = Some b ->
    R a b.
Proof.
  induction 1 as [|x xs Hs IH Hall]; intros j k a b Hjk Ha Hb.
  - destruct j; discriminate.
  - destruct k as [|k]; [lia|]. simpl in Hb. destruct j as [|j].
    + simpl in Ha. inversion Ha; subst a.
      apply (proj1 (Forall_forall _ _) Hall). eapply nth_error_In; eassumption.
    + simpl in Ha. apply (IH j k); [lia | exact Ha | exact Hb].
Qed.

Section PickOrder.

Variables Hidden Attn : Type.

(** The walk appends to what was kept before. *)
Lemma keep_unique_prefix (count : nat) (hs unique : list (Single Hidden Attn)) :
  exists extra, keep_unique count unique hs = unique ++ extra.
Proof.
  revert unique. induction hs as [|h hs IH]; intros unique; simpl.
  - exists []. now rewrite app_nil_r.
  - destruct (Nat.leb count (List.length unique));
      [exists []; now rewrite app_nil_r|].
    destruct (already_exists h unique); [apply IH|].
    destruct (IH (unique ++ [h])) as (extra & ->).
    exists (h :: extra). now rewrite <- app_assoc.
Qed.

(** The walk keeps the order of the list it walks over. *)
Lemma keep_unique_sorted (R : Single Hidden Attn -> Single Hidden Attn -> Prop)
  (count : nat) (hs unique : list (Single Hidden Attn)) :
  StronglySorted R (unique ++ hs) ->
  StronglySorted R (keep_unique count unique hs).
Proof.
  revert unique. induction hs as [|h hs IH]; intros unique Hs; simpl.
  - now rewrite app_nil_r in Hs.
  - destruct (Nat.leb count (List.length unique));
      [eapply StronglySorted_app_l; eassumption|].
    destruct (already_exists h unique).
    + apply IH. eapply StronglySorted_remove; eassumption.
    + apply IH. now rewrite <- app_assoc.
Qed.

(** With room for one hypothesis the walk keeps the first of the list. *)
Lemma keep_unique_head (count : nat) (h : Single Hidden Attn) hs :
  0 < count ->
  exists extra, keep_unique count [] (h :: hs) = h :: extra.
Proof.
  intros Hc. simpl.
  destruct (Nat.leb_spec count 0) as [Hle|_]; [lia|].
  destruct (keep_unique_prefix count hs [h]) as (extra & ->).
  exists extra. reflexivity.
Qed.

Lemma pick_top_k_unique_inv (hypotheses : list (Batched Hidden Attn)) count out :
  pick_top_k_unique hypotheses count = inr out ->
  exists by_seq,
    unbatch_hypotheses hypotheses = inr by_seq /\
    batch_single_hypotheses
      (map (keep_unique count [])
         (map (sorted_desc (@s_probability _ _)) by_seq)) = inr out.
Proof.
  unfold pick_top_k_unique. intros H.
  apply bind_inr in H as (by_seq & Hun & H). eauto.
Qed.

Lemma pick_length_le
  (hypotheses : list (Batched Hidden Attn)) (count : nat) out :
  pick_top_k_unique hypotheses count = inr out ->
  List.length out <= count.
Proof.
  intros H. apply pick_top_k_unique_inv in H as (by_seq & _ & H).
  apply batch_single_hypotheses_spec in H as (m & Hmin & Hlen & _).
  apply min_of_spec in Hmin as (_ & Hin).
  rewrite !map_map in Hin. apply in_map_iff in Hin as (row & E & _).
  pose proof (keep_unique_length count
                (sorted_desc (@s_probability _ _) row) []) as Hle.
  simpl in Hle. lia.
Qed.

(** [pick_top_k_unique] never returns more than [count] hypotheses. *)
Theorem pick_top_k_unique_at_most_count
  (hypotheses : list (Batched Hidden Attn)) (count : nat) out :
  pick_top_k_unique hypotheses count = inr out ->
  List.length out <= count.
Proof. apply pick_length_le. Qed.

(** The returned beam is in descending order of probability for every
    input: a hypothesis returned earlier is at least as probable as one
    returned later. *)
Theorem pick_top_k_unique_descending
  (hypotheses : list (Batched Hidden Attn)) (count : nat) out :
  pick_top_k_unique hypotheses count = inr out ->
  forall i j k b_j b_k s_j s_k,
    j < k ->
    nth_error out j = Some b_j -> nth_error out k = Some b_k ->
    single_at b_j i = inr s_j -> single_at b_k i = inr s_k ->
    (s_probability s_k <= s_probability s_j)%Q.
Proof.
  intros H i j k b_j b_k s_j s_k Hjk Hj Hk Hsj Hsk.
  pose proof (proj1 (single_at_inr _ _ _) Hsj) as (Hrj & _).
  pose proof (proj1 (single_at_inr _ _ _) Hsk) as (Hrk & _).
  edestruct kept_row as (by1 & row1 & s1 & U1 & R1 & K1 & _ & S1);
    [exact H | exact Hj | exact Hrj |].
  edestruct kept_row as (by2 & row2 & s2 & U2 & R2 & K2 & _ & S2);
    [exact H | exact Hk | exact Hrk |].
  assert (by2 = by1) by congruence. subst by2.
  assert (row2 = row1) by congruence. subst row2.
  assert (s1 = s_j) by congruence. assert (s2 = s_k) by congruence. subst s1 s2.
  apply (@StronglySorted_nth_error _ (desc (@s_probability Hidden Attn))
           (keep_unique count [] (sorted_desc (@s_probability _ _) row1)))
    with (j := j) (k := k); auto.
  apply keep_unique_sorted. simpl. apply sorted_desc_sorted.
Qed.

(** The first returned hypothesis is, for every input, a candidate of the
    highest probability among all candidates of that input. *)
Theorem pick_top_k_unique_best_first
  (hypotheses : list (Batched Hidden Attn)) (count : nat) best rest :
  pick_top_k_unique hypotheses count = inr (best :: rest) ->
  forall h i s, In h hypotheses -> single_at h i = inr s ->
    exists s_best,
      single_at best i = inr s_best /\
      (s_probability s <= s_probability s_best)%Q.
Proof.
  intros H h i s Hh Hs.
  pose proof H as H'. apply pick_top_k_unique_inv in H' as (by_seq & U & B).
  edestruct unbatch_hypotheses_complete as (row & Hrow & Hin);
    [exact U | exact Hh | exact Hs |].
  apply batched_entries in B as (_ & Hent).
  assert (Hkept : nth_error
            (map (keep_unique count [])
               (map (sorted_desc (@s_probability _ _)) by_seq)) i
          = Some (keep_unique count [] (sorted_desc (@s_probability _ _) row))).
  { rewrite !nth_error_map, Hrow. reflexivity. }
  destruct (Hent i _ Hkept) as (Hlen & Hentry).
  destruct (Hentry 0 best eq_refl) as (s_best & Hk & Hb).
  exists s_best. split; [exact Hb|].
  assert (Hcount : 0 < count).
  { pose proof (keep_unique_length count
                  (sorted_desc (@s_probability _ _) row) []) as Hle.
    simpl in Hlen, Hle. lia. }
  pose proof (sorted_desc_sorted (@s_probability Hidden Attn) row) as Hsorted.
  apply (sorted_desc_In (@s_probability Hidden Attn)) in Hin.
  destruct (sorted_desc (@s_probability _ _) row) as [|x xs]; [destruct Hin|].
  destruct (keep_unique_head x xs Hcount) as (extra & E).
  rewrite E in Hk. simpl in Hk. inversion Hk; subst s_best.
  apply StronglySorted_inv in Hsorted as [_ Hall].
  destruct Hin as [<-|Hin]; [apply Qle_refl|].
  exact (proj1 (Forall_forall _ _) Hall s Hin).
Qed.

(** [pick_top_k_unique] invents nothing: every entry of a returned
    hypothesis is the same entry of one of the candidates. *)
Theorem pick_top_k_unique_from_candidates
  (hypotheses : list (Batched Hidden Attn)) (count : nat) out :
  pick_top_k_unique hypotheses count = inr out ->
  forall b i r, In b out -> single_at b i = inr r ->
    exists h, In h hypotheses /\ single_at h i = inr r.
Proof.
  intros H b i r Hb Hr.
  apply In_nth_error in Hb as (j & Hj).
  pose proof (proj1 (single_at_inr _ _ _) Hr) as (Hrow & _).
  edestruct kept_row as (by_seq & row & s & U & R & K & _ & Hs);
    [exact H | exact Hj | exact Hrow |].
  assert (s = r) by congruence. subst s.
  apply nth_error_In, keep_unique_In in K as [[]|K].
  apply sorted_desc_In in K.
  eapply unbatch_hypotheses_sound; eassumption.
Qed.

Lemma pick_empty_iff
  (hypotheses : list (Batched Hidden Attn)) (count : nat) out :
  pick_top_k_unique hypotheses count = inr out ->
  (out = [] <-> count = 0).
Proof.
  intros H. split.
  - intros ->. apply pick_top_k_unique_inv in H as (by_seq & U & B).
    apply batch_single_hypotheses_spec in B as (m & Hmin & Hlen & _).
    simpl in Hlen. subst m.
    apply min_of_spec in Hmin as (_ & Hin).
    rewrite !map_map in Hin. apply in_map_iff in Hin as (row & E & Hrow).
    apply In_nth_error in Hrow as (i & Hi).
    destruct hypotheses as [|h0 hs].
    { inversion U; subst by_seq. destruct i; discriminate. }
    apply unbatch_hypotheses_exact in U as (Hrows & Hlen0 & Hall).
    destruct (Hall h0 (or_introl eq_refl)) as (n & Hn & _ & Hs).
    specialize (Hlen0 h0 hs eq_refl).
    assert (n = List.length by_seq) by (unfold ret in *; congruence). subst n.
    destruct (Hs i) as (s & Hsi); [apply nth_error_Some; congruence|].
    assert (Hin : In s row).
    { rewrite (Hrows i row Hi). unfold column. simpl. apply in_app_iff. left.
      erewrite entry_of_inr; [now left | exact Hsi]. }
    apply (sorted_desc_In (@s_probability Hidden Attn)) in Hin.
    destruct (sorted_desc (@s_probability _ _) row) as [|x xs]; [destruct Hin|].
    destruct count as [|count]; [reflexivity|].
    destruct (keep_unique_head x xs (Nat.lt_0_succ count)) as (extra & Ex).
    rewrite Ex in E. discriminate.
  - intros ->. apply pick_top_k_unique_inv in H as (by_seq & _ & B).
    apply batch_single_hypotheses_spec in B as (m & Hmin & Hlen & _).
    apply min_of_spec in Hmin as (_ & Hin).
    rewrite !map_map in Hin. apply in_map_iff in Hin as (row & E & _).
    pose proof (keep_unique_length 0
                  (sorted_desc (@s_probability _ _) row) []) as Hle.
    simpl in Hle. destruct out; [reflexivity | simpl in Hlen; lia].
Qed.

(** When [pick_top_k_unique] returns, the beam it returns is empty
    exactly when [count] is 0. *)
Theorem pick_top_k_unique_empty_iff
  (hypotheses : list (Batched Hidden Attn)) (count : nat) out :
  pick_top_k_unique hypotheses count = inr out ->
  (out = [] <-> count = 0).
Proof. apply pick_empty_iff. Qed.

End PickOrder.

(** ** Duplicates among the candidates of one input *)

Section PickKept.

Variables Hidden Attn : Type.

(** The bounded walk keeps the first [count] of the distinct sequences. *)
Lemma keep_unique_firstn (count : nat) (hs unique : list (Single Hidden Attn)) :
  List.length unique <= count ->
  keep_unique count unique hs
  = unique ++ firstn (count - List.length unique) (first_of_each unique hs).
Proof.
  revert unique. induction hs as [|h hs IH]; intros unique Hle; simpl.
  - now rewrite firstn_nil, app_nil_r.
  - destruct (Nat.leb_spec count (List.length unique)) as [Hfull|Hroom].
    + replace (count - List.length unique) with 0 by lia.
      simpl. now rewrite app_nil_r.
    + destruct (already_exists h unique); [now apply IH|].
      rewrite IH by (rewrite length_app; simpl; lia).
      rewrite length_app. simpl.
      replace (count - List.length unique)
        with (S (count - (List.length unique + 1))) by lia.
      simpl. now rewrite <- app_assoc.
Qed.

Lemma keep_unique_all (count : nat) (hs : list (Single Hidden Attn)) :
  keep_unique count [] hs = firstn count (first_of_each [] hs).
Proof.
  rewrite keep_unique_firstn by (simpl; lia).
  simpl. now rewrite Nat.sub_0_r.
Qed.

Lemma first_of_each_In (hs seen : list (Single Hidden Attn)) x :
  In x (first_of_each seen hs) -> In x hs.
Proof.
  revert seen. induction hs as [|h hs IH]; intros seen; simpl; [auto|].
  destruct (already_exists h seen).
  - intros H. right. eapply IH; eassumption.
  - intros [->|H]; [now left|]. right. eapply IH; eassumption.
Qed.

Lemma first_of_each_NoDup (hs seen : list (Single Hidden Attn)) :
  NoDup (map (@s_full _ _) seen) ->
  NoDup (map (@s_full _ _) (seen ++ first_of_each seen hs)).
Proof.
  revert seen. induction hs as [|h hs IH]; intros seen Hnd; simpl.
  - now rewrite app_nil_r.
  - destruct (already_exists h seen) eqn:E; [now apply IH|].
    replace (seen ++ h :: first_of_each (seen ++ [h]) hs)
      with ((seen ++ [h]) ++ first_of_each (seen ++ [h]) hs)
      by (now rewrite <- app_assoc).
    apply IH. rewrite map_app. simpl.
    apply (Permutation_NoDup (Permutation_cons_append _ _)).
    constructor; [|exact Hnd].
    intros Hin. apply already_exists_true in Hin. congruence.
Qed.

(** Two kept hypotheses with one sequence are one hypothesis. *)
Lemma first_of_each_unique (hs : list (Single Hidden Attn)) p q a b :
  nth_error (first_of_each [] hs) p = Some a ->
  nth_error (first_of_each [] hs) q = Some b ->
  s_full a = s_full b -> p = q.
Proof.
  intros Hp Hq E.
  pose proof (@first_of_each_NoDup hs [] (NoDup_nil _)) as Hnd.
  rewrite app_nil_l in Hnd.
  apply (proj1 (NoDup_nth_error _) Hnd).
  - rewrite length_map. apply nth_error_Some. congruence.
  - rewrite !nth_error_map, Hp, Hq. simpl. congruence.
Qed.

(** On a descending list every sequence that is not among [seen] is kept
    once, with a probability that is at least the one of any hypothesis
    that carries it. *)
Lemma first_of_each_best (hs seen : list (Single Hidden Attn)) c :
  StronglySorted (desc (@s_probability _ _)) hs ->
  In c hs -> ~ In (s_full c) (map (@s_full _ _) seen) ->
  exists position best,
    nth_error (first_of_each seen hs) position = Some best /\
    s_full best = s_full c /\
    (s_probability c <= s_probability best)%Q.
Proof.
  revert seen. induction hs as [|h hs IH]; intros seen Hs Hc Hseen;
    [destruct Hc|].
  apply StronglySorted_inv in Hs as [Hs Hall]. simpl.
  destruct (already_exists h seen) eqn:E.
  - destruct Hc as [->|Hc].
    + apply already_exists_true in E. contradiction.
    + now apply IH.
  - destruct (list_eq_dec Z.eq_dec (s_full h) (s_full c)) as [Heq|Hne].
    + exists 0, h. split; [reflexivity|]. split; [exact Heq|].
      destruct Hc as [->|Hc]; [apply Qle_refl|].
      exact (proj1 (Forall_forall _ _) Hall c Hc).
    + destruct Hc as [->|Hc]; [congruence|].
      destruct (IH (seen ++ [h]) Hs Hc) as (p & best & Hp & Hf & Hle).
      { rewrite map_app, in_app_iff. simpl. intros [?|[?|[]]]; auto. }
      exists (S p), best. simpl. auto.
Qed.

Lemma nth_error_firstn_Some (A : Type) (n : nat) (xs : list A) (k : nat) (x : A) :
  nth_error (firstn n xs) k = Some x <-> k < n /\ nth_error xs k = Some x.
Proof.
  revert n xs. induction k as [|k IH]; intros [|n] [|y xs]; simpl;
    try (split; [discriminate | intros [? ?]; try lia; discriminate]).
  - split; [intros H; split; [lia | exact H] | intros [_ H]; exact H].
  - rewrite IH. split; intros [? ?]; split; auto; lia.
Qed.

(** Claim C3, as the candidates are picked: when two candidates of one
    input carry the same full sequence with different probabilities, the
    candidates of that input are walked from the most to the least
    probable and the first candidate of every distinct sequence is kept.
    The duplicated sequence is so represented by one candidate [best],
    which is as probable as any candidate with that sequence and is not
    the less probable duplicate.  The number of returned hypotheses is the
    smaller of [count] and the smallest number of distinct sequences over
    the inputs.  [best] is returned, at its position among the distinct
    sequences, exactly when that position is below the number of returned
    hypotheses; no other candidate with the duplicated sequence is
    returned for that input, and the less probable duplicate never is. *)
Theorem pick_top_k_unique_keeps_higher
  (hypotheses : list (Batched Hidden Attn)) (count : nat)
  (out : list (Batched Hidden Attn)) (i : nat)
  (h1 h2 : Batched Hidden Attn) (s1 s2 : Single Hidden Attn) :
  pick_top_k_unique hypotheses count = inr out ->
  In h1 hypotheses -> In h2 hypotheses ->
  single_at h1 i = inr s1 -> single_at h2 i = inr s2 ->
  s_full s1 = s_full s2 ->
  (s_probability s2 < s_probability s1)%Q ->
  exists by_seq row position best,
    unbatch_hypotheses hypotheses = inr by_seq /\
    nth_error by_seq i = Some row /\
    nth_error (first_of_each [] (sorted_desc (@s_probability _ _) row)) position
    = Some best /\
    s_full best = s_full s1 /\
    (s_probability s1 <= s_probability best)%Q /\
    best <> s2 /\
    (exists h, In h hypotheses /\ single_at h i = inr best) /\
    (forall h c, In h hypotheses -> single_at h i = inr c ->
       s_full c = s_full s1 -> (s_probability c <= s_probability best)%Q) /\
    List.length out <= count /\
    (forall row', In row' by_seq ->
       List.length out
       <= List.length (first_of_each [] (sorted_desc (@s_probability _ _) row'))) /\
    (List.length out = count \/
     exists row', In row' by_seq /\
       List.length out
       = List.length (first_of_each [] (sorted_desc (@s_probability _ _) row'))) /\
    (position < List.length out ->
     exists b, nth_error out position = Some b /\ single_at b i = inr best) /\
    (forall b r, In b out -> single_at b i = inr r -> s_full r = s_full s1 ->
       r = best /\ position < List.length out) /\
    (forall b, In b out -> single_at b i <> inr s2).
Proof.
  intros H Hh1 Hh2 Hs1 Hs2 Hfull Hlt.
  destruct (pick_top_k_unique_inv _ _ H) as (by_seq & U & B).
  edestruct unbatch_hypotheses_complete as (row & R & Hin1);
    [exact U | exact Hh1 | exact Hs1 |].
  assert (Hsorted : StronglySorted (desc (@s_probability _ _))
                      (sorted_desc (@s_probability Hidden Attn) row))
    by apply sorted_desc_sorted.
  destruct (@first_of_each_best (sorted_desc (@s_probability _ _) row) [] s1)
    as (position & best & Hp & Hbf & Hble);
    [exact Hsorted | now apply sorted_desc_In | intros [] |].
  assert (Hne : best <> s2).
  { intros ->. apply (Qlt_not_le _ _ Hlt). exact Hble. }
  assert (Hmax : forall h c, In h hypotheses -> single_at h i = inr c ->
            s_full c = s_full s1 -> (s_probability c <= s_probability best)%Q).
  { intros h c Hh Hc Hcf.
    edestruct unbatch_hypotheses_complete as (row' & R' & Hin');
      [exact U | exact Hh | exact Hc |].
    assert (row' = row) by congruence. subst row'.
    destruct (@first_of_each_best (sorted_desc (@s_probability _ _) row) [] c)
      as (p' & best' & Hp' & Hbf' & Hble');
      [exact Hsorted | now apply sorted_desc_In | intros [] |].
    assert (p' = position)
      by (eapply first_of_each_unique; [exact Hp' | exact Hp | congruence]).
    subst p'. assert (best' = best) by congruence. subst best'. exact Hble'. }
  assert (Hkept : forall b r, In b out -> single_at b i = inr r ->
            s_full r = s_full s1 -> r = best /\ position < List.length out).
  { intros b r Hb Hr Hrf.
    apply In_nth_error in Hb as (j & Hj).
    pose proof (proj1 (single_at_inr _ _ _) Hr) as (Hrow & _).
    edestruct kept_row as (by_seq' & row' & s & U' & R' & K & _ & Hs);
      [exact H | exact Hj | exact Hrow |].
    assert (s = r) by congruence. subst s.
    assert (by_seq' = by_seq) by congruence. subst by_seq'.
    assert (row' = row) by congruence. subst row'.
    rewrite keep_unique_all in K.
    apply nth_error_firstn_Some in K as (_ & K).
    assert (j = position)
      by (eapply first_of_each_unique; [exact K | exact Hp | congruence]).
    subst j. split; [congruence|].
    apply nth_error_Some. congruence. }
  pose proof B as B'.
  apply batch_single_hypotheses_spec in B' as (m & Hmin & Hlen & Hat).
  apply min_of_spec in Hmin as (Hall & Hm).
  exists by_seq, row, position, best.
  split; [exact U|]. split; [exact R|]. split; [exact Hp|].
  split; [exact Hbf|]. split; [exact Hble|]. split; [exact Hne|].
  split.
  { apply nth_error_In, first_of_each_In, sorted_desc_In in Hp.
    eapply unbatch_hypotheses_sound; eassumption. }
  split; [exact Hmax|].
  split; [eapply pick_length_le; exact H|].
  split.
  { intros row' Hrow'. rewrite Hlen.
    assert (Hk : m <= List.length
                   (keep_unique count []
                      (sorted_desc (@s_probability Hidden Attn) row'))).
    { apply (proj1 (Forall_forall _ _) Hall).
      rewrite !map_map. apply in_map_iff. exists row'. auto. }
    rewrite keep_unique_all, length_firstn in Hk. lia. }
  split.
  { rewrite !map_map in Hm. apply in_map_iff in Hm as (row' & E & Hrow').
    rewrite keep_unique_all, length_firstn in E.
    destruct (Nat.min_spec count
                (List.length
                   (first_of_each []
                      (sorted_desc (@s_probability Hidden Attn) row'))))
      as [[_ E']|[_ E']].
    - left. lia.
    - right. exists row'. split; [exact Hrow'|]. lia. }
  split.
  { intros Hpos.
    destruct (nth_error out position) as [b|] eqn:Hb;
      [|apply nth_error_None in Hb; lia].
    exists b. split; [reflexivity|].
    apply Hat, batch_at_spec in Hb as (col & HF & ->).
    apply single_at_stacked.
    assert (Hshs : nth_error
                     (map (keep_unique count [])
                        (map (sorted_desc (@s_probability Hidden Attn)) by_seq)) i
                   = Some (keep_unique count []
                             (sorted_desc (@s_probability _ _) row))).
    { rewrite !nth_error_map, R. reflexivity. }
    destruct (Forall2_nth_error_l HF _ Hshs) as (s & Hs & Hk).
    rewrite keep_unique_all in Hk.
    apply nth_error_firstn_Some in Hk as (_ & Hk). congruence. }
  split; [exact Hkept|].
  intros b Hb Hr.
  destruct (Hkept b s2 Hb Hr (eq_sym Hfull)) as (E & _). congruence.
Qed.

End PickKept.

Lemma pick_top_k_unique_keeps_higher_witness :
  pick_top_k_unique Fixture.candidates 2 = inr Fixture.survivors /\
  In (Fixture.batch_of_one Fixture.dup_high) Fixture.candidates /\
  In (Fixture.batch_of_one Fixture.dup_low) Fixture.candidates /\
  s_full Fixture.dup_high = s_full Fixture.dup_low /\
  (s_probability Fixture.dup_low < s_probability Fixture.dup_high)%Q /\
  (exists b, nth_error Fixture.survivors 0 = Some b /\
     single_at b 0 = inr Fixture.dup_high) /\
  (forall b, In b Fixture.survivors -> single_at b 0 <> inr Fixture.dup_low).
Proof.
  split; [reflexivity|]. split; [simpl; auto|]. split; [simpl; auto|].
  split; [reflexivity|]. split; [reflexivity|].
  destruct (@pick_top_k_unique_keeps_higher unit unit Fixture.candidates 2
              Fixture.survivors 0
              (Fixture.batch_of_one Fixture.dup_high)
              (Fixture.batch_of_one Fixture.dup_low)
              Fixture.dup_high Fixture.dup_low)
    as (by_seq & row & position & best & U & R & Hp & Hbf & _ & _ & _ & _
        & _ & _ & _ & Hret & _ & Hlow);
    [reflexivity | simpl; auto | simpl; auto | reflexivity | reflexivity
    | reflexivity | reflexivity |].
  split; [|exact Hlow].
  vm_compute in U. inversion U; subst by_seq.
  simpl in R. inversion R; subst row.
  destruct position as [|[|position]].
  - vm_compute in Hp. inversion Hp; subst best.
    apply Hret. simpl. lia.
  - vm_compute in Hp. inversion Hp; subst best. discriminate Hbf.
  - vm_compute in Hp. destruct position; discriminate Hp.
Defined.

(** Claim C3 as stated fails when the beam has no room for the duplicated
    sequence: with room for one hypothesis and a third candidate that is
    more probable than both duplicates, only the third candidate is
    returned and neither of the two duplicates is kept. *)
Lemma pick_top_k_unique_drops_both :
  pick_top_k_unique Fixture.crowded 1
  = inr [Fixture.batch_of_one Fixture.better] /\
  In (Fixture.batch_of_one Fixture.dup_high) Fixture.crowded /\
  In (Fixture.batch_of_one Fixture.dup_low) Fixture.crowded /\
  single_at (Fixture.batch_of_one Fixture.dup_high) 0 = inr Fixture.dup_high /\
  single_at (Fixture.batch_of_one Fixture.dup_low) 0 = inr Fixture.dup_low /\
  s_full Fixture.dup_high = s_full Fixture.dup_low /\
  (s_probability Fixture.dup_low < s_probability Fixture.dup_high)%Q /\
  forall b r, In b [Fixture.batch_of_one Fixture.better] ->
    single_at b 0 = inr r -> s_full r <> s_full Fixture.dup_high.
Proof.
  split; [reflexivity|]. split; [simpl; auto|]. split; [simpl; auto|].
  split; [reflexivity|]. split; [reflexivity|]. split; [reflexivity|].
  split; [reflexivity|].
  intros b r [<-|[]] Hr. vm_compute in Hr. inversion Hr. discriminate.
Qed.

(** ** The decode driver: errors and the shape of the result *)

Lemma mapM_first_error (A B : Type) (f : A -> result B) (e : PyError)
  (xs : list A) :
  (forall x e', f x = inl e' -> e' = e) ->
  (exists x, In x xs /\ exists e', f x = inl e') ->
  mapM f xs = inl e.
Proof.
  intros Honly. induction xs as [|x xs IH]; intros (y & Hy & e' & He').
  - destruct Hy.
  - simpl. destruct (f x) as [e1|b] eqn:E; simpl.
    + f_equal. eapply Honly; eassumption.
    + destruct Hy as [->|Hy]; [congruence|].
      rewrite IH; [reflexivity|]. eauto.
Qed.

Section DriverExtras.

Variables Image Feat Hidden Attn : Type.
Variable C : Collaborators Image Feat Hidden Attn.

(** The steps of a successful expansion. *)
Lemma expand_inv enc_low_res enc_high_res beam_width
  (parent : Batched Hidden Attn) children alpha' :
  expand C enc_low_res enc_high_res beam_width parent = inr (children, alpha') ->
  exists previous out next_hidden tops,
    mapM last_token (seq_full parent) = inr previous /\
    dec_forward C previous (hidden parent) enc_low_res enc_high_res
      (attn_low parent, attn_high parent) = (out, next_hidden, alpha') /\
    Forall2 (fun row t => topk row beam_width = inr t)
      (map (softmax_row (exp_ C)) out) tops /\
    Forall2 (fun j c => child parent next_hidden alpha' tops j = inr c)
      (seq 0 beam_width) children.
Proof.
  unfold expand. intros H. apply bind_inr in H as (previous & Hprev & H).
  destruct (dec_forward C previous (hidden parent) enc_low_res enc_high_res
              (attn_low parent, attn_high parent))
    as [[out next_hidden] alpha1] eqn:E.
  apply bind_inr in H as (tops & Htops & H).
  apply bind_inr in H as (cs & Hcs & H). inversion H; subst.
  exists previous, out, next_hidden, tops.
  repeat split; auto using mapM_Forall2.
Qed.


(** A beam wider than a row of logits makes the expansion fail with the
    [RuntimeError] of [torch.topk]. *)
Theorem expand_beam_wider_than_vocabulary enc_low_res enc_high_res beam_width
  (parent : Batched Hidden Attn) previous out next_hidden alpha' :
  mapM last_token (seq_full parent) = inr previous ->
  dec_forward C previous (hidden parent) enc_low_res enc_high_res
    (attn_low parent, attn_high parent) = (out, next_hidden, alpha') ->
  (exists row, In row out /\ List.length row < beam_width) ->
  expand C enc_low_res enc_high_res beam_width parent = inl RuntimeError.
Proof.
  intros Hprev Hdec (row & Hrow & Hlt). unfold expand.
  rewrite Hprev. simpl. rewrite Hdec.
  rewrite (@mapM_first_error _ _ (fun r => topk r beam_width) RuntimeError);
    [reflexivity| |].
  - intros r e'. unfold topk.
    destruct (Nat.ltb (List.length r) beam_width); intros E; inversion E.
    reflexivity.
  - exists (softmax_row (exp_ C) row). split; [now apply in_map|].
    exists RuntimeError. unfold topk, softmax_row. rewrite !length_map.
    apply Nat.ltb_lt in Hlt. now rewrite Hlt.
Qed.

End DriverExtras.

Lemma Forall2_In_l (A B : Type) (R : A -> B -> Prop) xs ys (x : A) :
  Forall2 R xs ys -> In x xs -> exists y, In y ys /\ R x y.
Proof.
  intros HF Hx. apply In_nth_error in Hx as (i & Hi).
  destruct (Forall2_nth_error_l HF _ Hi) as (y & Hy & HR).
  exists y. split; [eapply nth_error_In; eassumption | exact HR].
Qed.

Section DriverShape.

Variables Image Feat Hidden Attn : Type.
Variable C : Collaborators Image Feat Hidden Attn.

(** The children of a parent whose probability is a float have one
    probability per row of the parent. *)
Lemma child_of_float_parent (parent : Batched Hidden Attn) next_hidden alpha
  tops j c x :
  probability parent = PFloat x ->
  child parent next_hidden alpha tops j = inr c ->
  prob_len (probability c) = inr (List.length (seq_full parent)).
Proof.
  intros Hp Hc. apply child_spec in Hc as (next & probs & Hcat & Hmul & ->).
  rewrite Hp in Hmul. simpl in Hmul. inversion Hmul; subst probs. simpl.
  unfold cat_column in Hcat.
  destruct (Nat.eqb_spec (List.length (seq_full parent))
              (List.length (map (fun row => snd (nth j row (0%Q, 0%Z))) tops)))
    as [E|]; [|discriminate].
  rewrite !length_map in *. unfold ret. congruence.
Qed.

(** One round of the beam step from a hypothesis whose probability is a
    float, as the seed of [evaluate] is: expansion, then the unique top-k
    selection.  The selection returns between 1 and [beam_width]
    hypotheses; each has one sequence per row of the parent, and every
    such sequence is the parent's row with one token appended. *)
Theorem beam_round_shape enc_low_res enc_high_res beam_width
  (parent : Batched Hidden Attn) (x : Q) children alpha' survivors :
  probability parent = PFloat x ->
  expand C enc_low_res enc_high_res beam_width parent = inr (children, alpha') ->
  pick_top_k_unique children beam_width = inr survivors ->
  1 <= List.length survivors <= beam_width /\
  forall b, In b survivors ->
    List.length (seq_full b) = List.length (seq_full parent) /\
    forall i row, nth_error (seq_full b) i = Some row ->
      exists row_parent tok,
        nth_error (seq_full parent) i = Some row_parent /\
        row = row_parent ++ [tok].
Proof.
  intros Hfloat Hexp Hpick.
  pose proof Hexp as Hinv.
  apply expand_inv in Hinv as (previous & out & nh & tops & _ & _ & _ & Hcs).
  assert (Hbw : beam_width <> 0).
  { intros ->. inversion Hcs; subst. discriminate. }
  split.
  - pose proof (pick_length_le _ _ Hpick) as Hle.
    destruct survivors as [|b0 rest]; [|simpl in *; lia].
    exfalso. apply Hbw. now apply (pick_empty_iff _ _ Hpick).
  - intros b Hb. split.
    + destruct beam_width as [|bw]; [congruence|].
      inversion Hcs as [|j0 c0 js cs Hc0 _]; subst.
      apply child_of_float_parent with (x := x) in Hc0; [|exact Hfloat].
      apply pick_top_k_unique_inv in Hpick as (by_seq & U & B).
      apply unbatch_hypotheses_exact in U as (_ & Hn0 & _).
      specialize (Hn0 c0 cs eq_refl).
      assert (En : List.length by_seq = List.length (seq_full parent))
        by (unfold ret in *; congruence).
      apply batched_entries in B as (Hrect & _).
      rewrite !length_map in Hrect.
      apply (proj1 (Forall_forall _ _) Hrect) in Hb.
      destruct Hb as (Hf & _). congruence.
    + intros i row Hi.
      apply In_nth_error in Hb as (j & Hj).
      edestruct kept_row as (by_seq & cands & s & U & R & K & F & _);
        [exact Hpick | exact Hj | exact Hi |].
      apply nth_error_In, keep_unique_In in K as [[]|K].
      apply sorted_desc_In in K.
      edestruct unbatch_hypotheses_sound as (h & Hh & Hs);
        [exact U | exact R | exact K |].
      apply single_at_inr in Hs as (Hs & _).
      edestruct expand_child_rows as (_ & Hrows); [exact Hexp | exact Hh |].
      destruct (Hrows _ _ Hs) as (rp & tok & Hrp & E).
      exists rp, tok. split; [exact Hrp | congruence].
Qed.


End DriverShape.

(** ** Round trip: grouping by input, then re-batching *)

Lemma mapM_seq (A : Type) (f : nat -> result A) (xs : list A) (start : nat) :
  (forall j x, nth_error xs j = Some x -> f (start + j) = inr x) ->
  mapM f (seq start (List.length xs)) = inr xs.
Proof.
  revert start. induction xs as [|x xs IH]; intros start H; [reflexivity|].
  simpl. specialize (H 0 x eq_refl) as H0. rewrite Nat.add_0_r in H0.
  rewrite H0. simpl. rewrite IH; [reflexivity|].
  intros j y Hj. replace (S start + j) with (start + S j) by lia. now apply H.
Qed.

Lemma min_of_constant (ns : list nat) (m : nat) :
  ns <> [] -> Forall (fun n => n = m) ns -> min_of ns = inr m.
Proof.
  destruct ns as [|n ns]; [congruence|]. intros _ Hall.
  apply Forall_cons_iff in Hall as [-> Hall]. simpl. unfold ret. f_equal.
  induction Hall as [|k ns -> _ IH]; simpl; [reflexivity|].
  now rewrite Nat.min_id.
Qed.

Section BatchAfterUnbatch.

Variables Hidden Attn : Type.

Lemma column_nth (n : nat) (hs : list (Batched Hidden Attn)) (i j : nat) h :
  Forall (rectangular n) hs -> i < n -> nth_error hs j = Some h ->
  exists s, single_at h i = inr s /\ nth_error (column hs i) j = Some s.
Proof.
  intros Hall Hi. revert j. induction Hall as [|h0 hs Hh0 _ IH]; intros j Hj.
  - destruct j; discriminate.
  - destruct (single_at_total Hh0 Hi) as (s0 & Hs0).
    unfold column. simpl. erewrite entry_of_inr; [|exact Hs0]. simpl.
    destruct j as [|j]; simpl in Hj.
    + inversion Hj; subst h. exists s0. auto.
    + exact (IH j Hj).
Qed.

(** Round trip: on a non-empty list of batched hypotheses that all have
    one entry per input of a non-empty batch, and whose sequences have one
    length within each hypothesis, grouping by input and re-batching gives
    the list back. *)
Theorem batch_after_unbatch (n : nat) (hs : list (Batched Hidden Attn)) :
  hs <> [] -> 0 < n ->
  Forall (rectangular n) hs ->
  (forall h r1 r2, In h hs -> In r1 (seq_full h) -> In r2 (seq_full h) ->
     List.length r1 = List.length r2) ->
  exists by_seq,
    unbatch_hypotheses hs = inr by_seq /\
    batch_single_hypotheses by_seq = inr hs.
Proof.
  intros Hne Hn Hall Hrows.
  destruct (unbatch_rectangular Hall) as (by_seq & Hun & Hlen & Hrowlen).
  exists by_seq. split; [exact Hun|]. specialize (Hlen Hne).
  apply unbatch_hypotheses_exact in Hun as (Hcol & _).
  unfold batch_single_hypotheses.
  rewrite (@min_of_constant _ (List.length hs)).
  - simpl. apply mapM_seq. intros j h Hj. simpl.
    unfold batch_at.
    destruct (mapM_total (fun row : list (Single Hidden Attn) => index row j) by_seq)
      as (col & Hcolm).
    { intros row Hrow. apply In_nth_error in Hrow as (i & Hi).
      specialize (Hrowlen i row Hi).
      destruct (nth_error row j) as [s|] eqn:E.
      - exists s. now apply index_inr.
      - apply nth_error_None in E.
        assert (j < List.length hs) by (apply nth_error_Some; congruence). lia. }
    rewrite Hcolm. simpl. apply mapM_Forall2 in Hcolm.
    assert (Hlcol : List.length col = n).
    { apply Forall2_length in Hcolm. congruence. }
    assert (Hentry : forall i s, nth_error col i = Some s -> single_at h i = inr s).
    { intros i s Hs.
      destruct (Forall2_nth_error_r Hcolm _ Hs) as (row & Hrow & Hidx).
      apply index_inr in Hidx. rewrite (Hcol i row Hrow) in Hidx.
      assert (Hi : i < n).
      { rewrite <- Hlcol. apply nth_error_Some. congruence. }
      edestruct column_nth as (s' & Hs' & Hnth);
        [exact Hall | exact Hi | exact Hj |].
      congruence. }
    pose proof (proj1 (Forall_forall _ _) Hall h (nth_error_In _ _ Hj))
      as (Hf & Hh & Hl & Hg & ps & Hp & Hps).
    assert (Hfield : forall (B : Type) (proj : Single Hidden Attn -> B)
                       (field : list B),
               List.length field = n ->
               (forall i s, single_at h i = inr s ->
                  nth_error field i = Some (proj s)) ->
               map proj col = field).
    { intros B proj field Hlf Hproj. apply nth_error_ext. intros i.
      rewrite nth_error_map.
      destruct (nth_error col i) as [s|] eqn:Es; simpl.
      - symmetry. apply Hproj. now apply Hentry.
      - symmetry. apply nth_error_None. apply nth_error_None in Es. lia. }
    assert (Ef : map (@s_full _ _) col = seq_full h).
    { apply Hfield; [exact Hf|]. intros i s Hs.
      now apply single_at_inr in Hs as (? & _). }
    assert (Eh : map (@s_hidden _ _) col = hidden h).
    { apply Hfield; [exact Hh|]. intros i s Hs.
      now apply single_at_inr in Hs as (_ & ? & _). }
    assert (El : map (@s_attn_low _ _) col = attn_low h).
    { apply Hfield; [exact Hl|]. intros i s Hs.
      now apply single_at_inr in Hs as (_ & _ & ? & _). }
    assert (Eg : map (@s_attn_high _ _) col = attn_high h).
    { apply Hfield; [exact Hg|]. intros i s Hs.
      now apply single_at_inr in Hs as (_ & _ & _ & ? & _). }
    assert (Ep : map (@s_probability _ _) col = ps).
    { apply Hfield; [exact Hps|]. intros i s Hs.
      apply single_at_inr in Hs as (_ & _ & _ & _ & Hpi).
      rewrite Hp in Hpi. simpl in Hpi. now apply index_inr. }
    rewrite Ef, Eh, El, Eg, Ep. unfold stack_rows.
    destruct (seq_full h) as [|r0 rs] eqn:Eseq; [simpl in Hf; lia|].
    replace (forallb _ rs) with true.
    + simpl. destruct h; simpl in *. subst. reflexivity.
    + symmetry. apply forallb_forall. intros r Hr. apply Nat.eqb_eq.
      apply (Hrows h r r0 (nth_error_In _ _ Hj)); rewrite Eseq; simpl; auto.
  - destruct by_seq; [simpl in Hlen; lia | discriminate].
  - apply Forall_map, Forall_forall. intros row Hrow.
    apply In_nth_error in Hrow as (i & Hi). exact (Hrowlen i row Hi).
Qed.

End BatchAfterUnbatch.

(** ** The further properties on the fixture *)

Lemma unbatch_hypotheses_groups_in_order_witness :
  unbatch_hypotheses Fixture.candidates
  = inr [[Fixture.dup_low; Fixture.other; Fixture.dup_high]] /\
  (forall i row,
     nth_error [[Fixture.dup_low; Fixture.other; Fixture.dup_high]] i = Some row ->
     row = column Fixture.candidates i) /\
  forall h n, In h Fixture.candidates -> prob_len (probability h) = inr n ->
    n <= 1.
Proof.
  assert (H : unbatch_hypotheses Fixture.candidates
              = inr [[Fixture.dup_low; Fixture.other; Fixture.dup_high]])
    by reflexivity.
  split; [exact H|].
  destruct (unbatch_hypotheses_groups_in_order _ H) as (H1 & _ & H3).
  split; [exact H1 | exact H3].
Defined.

Lemma pick_top_k_unique_at_most_count_witness :
  pick_top_k_unique Fixture.candidates 2 = inr Fixture.survivors /\
  List.length Fixture.survivors <= 2.
Proof.
  split; [reflexivity|].
  apply (@pick_top_k_unique_at_most_count unit unit Fixture.candidates 2).
  reflexivity.
Defined.

Lemma pick_top_k_unique_descending_witness :
  (s_probability Fixture.other <= s_probability Fixture.dup_high)%Q.
Proof.
  apply (@pick_top_k_unique_descending unit unit Fixture.candidates 2
           Fixture.survivors eq_refl 0 0 1
           (Fixture.batch_of_one Fixture.dup_high)
           (Fixture.batch_of_one Fixture.other)).
  - lia.
  - reflexivity.
  - reflexivity.
  - reflexivity.
  - reflexivity.
Defined.

Lemma pick_top_k_unique_best_first_witness :
  exists s_best,
    single_at (Fixture.batch_of_one Fixture.dup_high) 0 = inr s_best /\
    (s_probability Fixture.dup_low <= s_probability s_best)%Q.
Proof.
  apply (@pick_top_k_unique_best_first unit unit Fixture.candidates 2
           (Fixture.batch_of_one Fixture.dup_high)
           [Fixture.batch_of_one Fixture.other] eq_refl
           (Fixture.batch_of_one Fixture.dup_low)).
  - simpl; auto.
  - reflexivity.
Defined.

Lemma pick_top_k_unique_from_candidates_witness :
  exists h, In h Fixture.candidates /\ single_at h 0 = inr Fixture.other.
Proof.
  apply (@pick_top_k_unique_from_candidates unit unit Fixture.candidates 2
           Fixture.survivors eq_refl (Fixture.batch_of_one Fixture.other)).
  - simpl; auto.
  - reflexivity.
Defined.

Lemma pick_top_k_unique_empty_iff_witness :
  pick_top_k_unique Fixture.candidates 0 = inr [] /\
  (@nil (Batched unit unit) = [] <-> 0 = 0).
Proof.
  split; [reflexivity|].
  apply (@pick_top_k_unique_empty_iff unit unit Fixture.candidates 0 []).
  reflexivity.
Defined.

Lemma batch_after_unbatch_witness :
  exists by_seq,
    unbatch_hypotheses Fixture.candidates = inr by_seq /\
    batch_single_hypotheses by_seq = inr Fixture.candidates.
Proof.
  apply (@batch_after_unbatch unit unit 1 Fixture.candidates).
  - discriminate.
  - lia.
  - repeat constructor; simpl; try reflexivity; eexists; split; reflexivity.
  - intros h r1 r2 [<-|[<-|[<-|[]]]] [<-|[]] [<-|[]]; reflexivity.
Defined.


Lemma expand_beam_wider_than_vocabulary_witness :
  expand Fixture.model tt tt 7 Fixture.seed = inl RuntimeError.
Proof.
  apply (@expand_beam_wider_than_vocabulary unit unit unit unit Fixture.model
           tt tt 7 Fixture.seed [0%Z]
           [[1 # 4; 1 # 4; 3; 6; 1 # 4; 1 # 4]%Q] [tt] ([tt], [tt])).
  - reflexivity.
  - reflexivity.
  - eexists. split; [left; reflexivity | simpl; lia].
Defined.

Lemma beam_round_shape_witness :
  expand Fixture.model tt tt 2 Fixture.seed
  = inr ([Fixture.first_child; Fixture.second_child], ([tt], [tt])) /\
  pick_top_k_unique [Fixture.first_child; Fixture.second_child] 2
  = inr [Fixture.first_child; Fixture.second_child] /\
  1 <= List.length [Fixture.first_child; Fixture.second_child] <= 2.
Proof.
  assert (H : expand Fixture.model tt tt 2 Fixture.seed
              = inr ([Fixture.first_child; Fixture.second_child], ([tt], [tt])))
    by (vm_compute; reflexivity).
  assert (P : pick_top_k_unique [Fixture.first_child; Fixture.second_child] 2
              = inr [Fixture.first_child; Fixture.second_child])
    by (vm_compute; reflexivity).
  split; [exact H|]. split; [exact P|].
  exact (proj1 (@beam_round_shape unit unit unit unit Fixture.model tt tt 2
                  Fixture.seed 1%Q _ _ _ eq_refl H P)).
Defined.
